(** * RepositoriesStore: the local-repository store over a transactional
      object store

    A shallow embedding of [src/shared-process/repositories-store.ts]:
    the three tables ([repositories], [gitHubRepositories], [owners]), the
    generator-based transaction bodies written in a small state-and-error
    monad whose binds are the source's [yield]s, and the three public
    methods [getRepositories], [addRepository], [updateGitHubRepository]. *)

From Stdlib Require Import ZArith List String Ascii Bool Sorted Lia.
Import ListNotations.
Local Open Scope Z_scope.

Set Implicit Arguments.

(** ** Domain value objects *)

Module Models.

(** Modelled from the spec: the classes of [models/owner.ts],
    [models/github-repository.ts] and [models/repository.ts], which the
    store imports and whose source is not available:
    "Repository(path, optional HostedRepository, id)",
    "HostedRepository(name, Owner, private, fork, htmlURL)",
    "Owner(login, endpoint)".  The projections carry the names of the
    getters the store calls. *)
Record Owner : Type := mkOwner
  { getLogin : string;
    getEndpoint : string }.

Record GitHubRepository : Type := mkGitHubRepository
  { getName : string;
    getOwner : Owner;
    getPrivate : bool;
    getFork : bool;
    getHTMLURL : string }.

(** [getGitHubRepository] is [null] for a repository without a hosted
    counterpart; [getID] is [null] until the store has assigned an id. *)
Record Repository : Type := mkRepository
  { getPath : string;
    getGitHubRepository : option GitHubRepository;
    getID : option Z }.

(** Modelled from the spec: [Repository.repositoryWithID], whose source
    is not available: "the input Repository re-expressed with the newly
    assigned id (all other fields unchanged ...)". *)
Definition repositoryWithID (repo : Repository) (id : Z) : Repository :=
  mkRepository (getPath repo) (getGitHubRepository repo) (Some id).

End Models.

(** ** The object store *)

Module Dexie.

(** Modelled from the spec: the table primitives of the embedded store
    ([./database] and the Dexie library, whose source is not available):
    "get(table, id) -> record | absent", "add(table, record) ->
    generated_id", "put(table, record, id) -> void (insert-or-replace)",
    "query(table, indexed_field).equalsIgnoreCase(value).limit(1).first()
    -> record | absent", "toArray(table) -> sequence of record"; "each
    insert operation returns a freshly allocated, table-unique integer
    id".

    A stored record is the object literal handed to [add] or [put]
    together with the primary key the store keeps in its [id] property. *)
Record Stored (V : Type) : Type := mkStored
  { id : Z;
    fields : V }.

(** A table holds its records in primary-key order and the next value of
    its key generator. *)
Record Table (V : Type) : Type := mkTable
  { rows : list (Stored V);
    nextID : Z }.

Arguments mkStored {V} _ _.
Arguments mkTable {V} _ _.

(** The key generator of a new table starts at 1. *)
Definition empty {V : Type} : Table V := mkTable [] 1.

Definition hasKey {V : Type} (k : Z) (r : Stored V) : bool := id r =? k.

(** [get]: the record stored under the key, [undefined] when there is
    none (and for a [null] key). *)
Definition get {V : Type} (t : Table V) (k : option Z) : option (Stored V) :=
  match k with
  | None => None
  | Some k => find (hasKey k) (rows t)
  end.

(** [add]: store the record under a freshly generated key, which is the
    result. *)
Definition add {V : Type} (t : Table V) (v : V) : Z * Table V :=
  (nextID t, mkTable (rows t ++ [mkStored (nextID t) v]) (nextID t + 1)).

Fixpoint upsert {V : Type} (k : Z) (v : V) (l : list (Stored V))
  : list (Stored V) :=
  match l with
  | [] => [mkStored k v]
  | r :: l' =>
      if id r =? k then mkStored k v :: l'
      else if k <? id r then mkStored k v :: r :: l'
      else r :: upsert k v l'
  end.

(** [put]: insert-or-replace under the given key; with no key it is an
    insert under a generated one.  An explicit key moves the key
    generator past it. *)
Definition put {V : Type} (t : Table V) (v : V) (k : option Z)
  : Z * Table V :=
  match k with
  | None => add t v
  | Some k => (k, mkTable (upsert k v (rows t)) (Z.max (nextID t) (k + 1)))
  end.

Definition toArray {V : Type} (t : Table V) : list (Stored V) := rows t.

(** Case folding of the letters A-Z. *)
Definition lowerChar (c : ascii) : ascii :=
  let n := N_of_ascii c in
  if ((65 <=? n) && (n <=? 90))%N then ascii_of_N (n + 32) else c.

Fixpoint toLowerCase (s : string) : string :=
  match s with
  | EmptyString => EmptyString
  | String c s' => String (lowerChar c) (toLowerCase s')
  end.

Definition equalsIgnoreCase (a b : string) : bool :=
  String.eqb (toLowerCase a) (toLowerCase b).

(** [first]: the first record of a collection in the order of the index
    it was queried on (the indexed string, then the primary key). *)
Fixpoint first {V : Type} (index : V -> string) (l : list (Stored V))
  : option (Stored V) :=
  match l with
  | [] => None
  | r :: l' =>
      match first index l' with
      | None => Some r
      | Some b =>
          if String.ltb (index (fields b)) (index (fields r))
          then Some b else Some r
      end
  end.

(** [table.where(index).equalsIgnoreCase(s)]: the records whose indexed
    property equals [s] up to case. *)
Definition whereEqualsIgnoreCase {V : Type} (t : Table V)
    (index : V -> string) (s : string) : list (Stored V) :=
  filter (fun r => equalsIgnoreCase (index (fields r)) s) (rows t).

End Dexie.

(** ** The schema *)

Module Schema.
Import Dexie.

(** Modelled from the spec: the record interfaces and the three tables
    declared in [./database], whose source is not available:
    "owners: {id (auto), login (indexed, case-insensitive-queried),
    endpoint}", "hosted_repositories: {id (auto), name, owner_id,
    private, fork, html_url}", "repositories: {id (auto), path,
    hosted_repository_id (nullable)}".  Property names are those the
    store reads and writes. *)
Record IOwner : Type := mkIOwner
  { login : string;
    endpoint : string }.

Record IGitHubRepository : Type := mkIGitHubRepository
  { name : string;
    ownerID : Z;
    private : bool;
    fork : bool;
    htmlURL : string }.

Record IRepository : Type := mkIRepository
  { path : string;
    gitHubRepositoryID : option Z }.

Record Database : Type := mkDatabase
  { repositories : Table IRepository;
    gitHubRepositories : Table IGitHubRepository;
    owners : Table IOwner }.

Definition emptyDatabase : Database := mkDatabase empty empty empty.

Definition withRepositories (d : Database) (t : Table IRepository) :=
  mkDatabase t (gitHubRepositories d) (owners d).
Definition withGitHubRepositories (d : Database)
    (t : Table IGitHubRepository) :=
  mkDatabase (repositories d) t (owners d).
Definition withOwners (d : Database) (t : Table IOwner) :=
  mkDatabase (repositories d) (gitHubRepositories d) t.

End Schema.

(** ** Transactions *)

Module Transaction.
Import Dexie Schema.

(** Modelled from the spec: how an operation of the store ends: "each
    store primitive (get, add, put, query) is an independent suspension
    point; control does not resume the enclosing operation until the
    primitive settles", "transaction failure - underlying store rejects
    or aborts the transaction".  A [yield] either resumes the body with
    the operation's result or throws into it. *)
Inductive Error : Type :=
| TypeError      (* a property read on [undefined] or [null] *)
| AbortError     (* the store rejected an operation or the commit *)
| ReadOnlyError. (* a write inside an ['r'] transaction *)

Inductive Result (A : Type) : Type :=
| Ok (a : A)
| Err (e : Error).
Arguments Ok {A} _.
Arguments Err {A} _.

Inductive Mode : Type := r | rw.

(** The state a transaction body runs in: the tables as the body sees
    them, and the store's decisions, one per operation still to come,
    on whether that operation is rejected ([true]); when the list is
    used up nothing more is rejected. *)
Record TxState : Type := mkTxState
  { db : Database;
    faults : list bool;
    mode : Mode }.

(** A generator body: from the state, a value or the error thrown, and
    the state at that point. *)
Definition Tx (A : Type) : Type := TxState -> Result A * TxState.

Definition ret {A : Type} (a : A) : Tx A := fun st => (Ok a, st).

Definition throw {A : Type} (e : Error) : Tx A := fun st => (Err e, st).

Definition bind {A B : Type} (c : Tx A) (k : A -> Tx B) : Tx B :=
  fun st =>
    match c st with
    | (Ok a, st') => k a st'
    | (Err e, st') => (Err e, st')
    end.

(** A property read [x.p] on a value that may be [undefined] or [null]. *)
Definition prop {A B : Type} (x : option A) (p : A -> B) : Tx B :=
  match x with
  | Some a => ret (p a)
  | None => throw TypeError
  end.

(** [yield] of a read operation of the store. *)
Definition yieldRead {A : Type} (op : Database -> A) : Tx A :=
  fun st =>
    match faults st with
    | true :: fs => (Err AbortError, mkTxState (db st) fs (mode st))
    | _ => (Ok (op (db st)), mkTxState (db st) (tl (faults st)) (mode st))
    end.

(** [yield] of a write operation of the store. *)
Definition yieldWrite {A : Type} (op : Database -> A * Database) : Tx A :=
  fun st =>
    match faults st with
    | true :: fs => (Err AbortError, mkTxState (db st) fs (mode st))
    | _ =>
        match mode st with
        | r => (Err ReadOnlyError, mkTxState (db st) (tl (faults st)) r)
        | rw =>
            let (a, d) := op (db st) in
            (Ok a, mkTxState d (tl (faults st)) rw)
        end
    end.

(** Modelled from the spec: the transaction wrapper of the store:
    "a transaction wrapper that runs a sequence of such calls atomically
    given a declared access mode", "failure means the transaction did
    not commit and the prior persisted state is unchanged".  The body
    runs on the tables as they are; its writes become the new tables
    when the body returns and the commit is not rejected, and are
    dropped otherwise. *)
Definition transaction {A : Type} (m : Mode) (body : Tx A)
    (plan : list bool) (d : Database) : Result A * Database :=
  match body (mkTxState d plan m) with
  | (Ok a, st) =>
      match faults st with
      | true :: _ => (Err AbortError, d)
      | _ => (Ok a, db st)
      end
  | (Err e, _) => (Err e, d)
  end.

(** [for (const x of l) { ...; out.push(y) }] *)
Fixpoint forOf {A B : Type} (l : list A) (body : A -> Tx B)
  : Tx (list B) :=
  match l with
  | [] => ret []
  | x :: l' =>
      bind (body x) (fun y =>
      bind (forOf l' body) (fun ys =>
      ret (y :: ys)))
  end.

End Transaction.

Declare Scope tx_scope.
Delimit Scope tx_scope with tx.
Notation "x <- c ;; k" := (Transaction.bind c (fun x => k))
  (at level 61, c at next level, right associativity) : tx_scope.

(** ** The store *)

Module RepositoriesStore.
Import Models Dexie Schema Transaction.
Local Open Scope tx_scope.

(** Truth value of a [number | null] in a condition, as in
    [if (repo.gitHubRepositoryID)] on line 30: [null] and [0] are falsy. *)
Definition truthy (k : option Z) : bool :=
  match k with
  | Some k => negb (k =? 0)
  | None => false
  end.

(** The body of the loop of [getRepositories] (lines 29-37), for one
    record of [repositories].  [gitHubRepository.ownerID] on line 32 and
    [owner.login] on line 33 are property reads on what [get] returned,
    which is [undefined] for a missing record. *)
Definition inflate (repo : Stored IRepository) : Tx Repository :=
  if truthy (gitHubRepositoryID (fields repo)) then
    gitHubRepository <-
      yieldRead (fun d =>
        get (gitHubRepositories d) (gitHubRepositoryID (fields repo))) ;;
    ownerID' <- prop gitHubRepository (fun g => ownerID (fields g)) ;;
    owner <- yieldRead (fun d => get (owners d) (Some ownerID')) ;;
    name' <- prop gitHubRepository (fun g => name (fields g)) ;;
    login' <- prop owner (fun o => login (fields o)) ;;
    endpoint' <- prop owner (fun o => endpoint (fields o)) ;;
    private' <- prop gitHubRepository (fun g => private (fields g)) ;;
    fork' <- prop gitHubRepository (fun g => fork (fields g)) ;;
    htmlURL' <- prop gitHubRepository (fun g => htmlURL (fields g)) ;;
    let gitHubRepo :=
      mkGitHubRepository name' (mkOwner login' endpoint')
                         private' fork' htmlURL' in
    ret (mkRepository (path (fields repo)) (Some gitHubRepo) (Some (id repo)))
  else
    ret (mkRepository (path (fields repo)) None (Some (id repo))).

(** Get all the local repositories (lines 23-45): an ['r'] transaction
    over the three tables; the array filled by the loop is returned once
    the transaction has completed. *)
Definition getRepositories (plan : list bool) (d : Database)
  : Result (list Repository) * Database :=
  transaction r
    (repos <- yieldRead (fun d => toArray (repositories d)) ;;
     forOf repos inflate)
    plan d.

(** The transaction body of [addRepository] (lines 52-76); its value is
    the [id] assigned on line 73. *)
Definition addRepositoryBody (repo : Repository) : Tx Z :=
  gitHubRepositoryID' <-
    match getGitHubRepository repo with
    | Some gitHubRepository =>
        let login' := getLogin (getOwner gitHubRepository) in
        existingOwner <-
          yieldRead (fun d =>
            first login (whereEqualsIgnoreCase (owners d) login login')) ;;
        ownerID' <-
          match existingOwner with
          | Some existingOwner => ret (id existingOwner)
          | None =>
              yieldWrite (fun d =>
                let (k, t) :=
                  add (owners d)
                      (mkIOwner login'
                         (getEndpoint (getOwner gitHubRepository))) in
                (k, withOwners d t))
          end ;;
        k <- yieldWrite (fun d =>
               let (k, t) :=
                 add (gitHubRepositories d)
                     (mkIGitHubRepository
                        (getName gitHubRepository)
                        ownerID'
                        (getPrivate gitHubRepository)
                        (getFork gitHubRepository)
                        (getHTMLURL gitHubRepository)) in
               (k, withGitHubRepositories d t)) ;;
        ret (Some k)
    | None => ret None
    end ;;
  yieldWrite (fun d =>
    let (k, t) :=
      add (repositories d)
          (mkIRepository (getPath repo) gitHubRepositoryID') in
    (k, withRepositories d t)).

(** Add a new local repository (lines 48-82): the ['rw'] transaction,
    then [repo.repositoryWithID(id)]. *)
Definition addRepository (repo : Repository) (plan : list bool)
    (d : Database) : Result Repository * Database :=
  match transaction rw (addRepositoryBody repo) plan d with
  | (Ok id', d') => (Ok (repositoryWithID repo id'), d')
  | (Err e, d') => (Err e, d')
  end.

(** The transaction body of [updateGitHubRepository] (lines 87-103).
    Line 90 reads [existingGitHubRepo.ownerID] before line 91 tests
    [!existingGitHubRepo]; the branch of lines 92-93 is kept as written. *)
Definition updateGitHubRepositoryBody (repository : Repository) : Tx unit :=
  localRepo <-
    yieldRead (fun d => get (repositories d) (getID repository)) ;;
  let newGitHubRepo := getGitHubRepository repository in
  key <- prop localRepo (fun l => gitHubRepositoryID (fields l)) ;;
  existingGitHubRepo <-
    yieldRead (fun d => get (gitHubRepositories d) key) ;;
  ownerID0 <- prop existingGitHubRepo (fun g => ownerID (fields g)) ;;
  ownerID' <-
    match existingGitHubRepo with
    | None =>
        owner <- prop newGitHubRepo getOwner ;;
        yieldWrite (fun d =>
          let (k, t) :=
            add (owners d) (mkIOwner (getLogin owner) (getEndpoint owner)) in
          (k, withOwners d t))
    | Some _ => ret ownerID0
    end ;;
  private' <- prop newGitHubRepo getPrivate ;;
  fork' <- prop newGitHubRepo getFork ;;
  htmlURL' <- prop newGitHubRepo getHTMLURL ;;
  name' <- prop newGitHubRepo getName ;;
  let info := mkIGitHubRepository name' ownerID' private' fork' htmlURL' in
  _ <- yieldWrite (fun d =>
         let (k, t) :=
           put (gitHubRepositories d) info
               (match existingGitHubRepo with
                | Some g => Some (id g)
                | None => None
                end) in
         (k, withGitHubRepositories d t)) ;;
  ret tt.

(** Lines 84-107. *)
Definition updateGitHubRepository (repository : Repository)
    (plan : list bool) (d : Database) : Result unit * Database :=
  transaction rw (updateGitHubRepositoryBody repository) plan d.

End RepositoriesStore.

(** ** The commit-message form *)

Module CommitMessage.
Local Open Scope string_scope.

(** [ICommitMessageProps]: the callback [onCreateCommit], whose effect on
    the rest of the application is a change of some [World], and the
    branch, a [string | null]. *)
Record ICommitMessageProps (World : Type) : Type := mkProps
  { onCreateCommit : string -> World -> World;
    branch : option string }.

Record ICommitMessageState : Type := mkState
  { title : string }.

(** A mounted component: its props and its current state. *)
Record Component (World : Type) : Type := mkComponent
  { props : ICommitMessageProps World;
    state : ICommitMessageState }.

(** What the handlers use of an event: the value of its target, and
    whether [preventDefault] and [stopPropagation] have been called. *)
Record Event : Type := mkEvent
  { targetValue : string;
    defaultPrevented : bool;
    propagationStopped : bool }.

Definition preventDefault (event : Event) : Event :=
  mkEvent (targetValue event) true (propagationStopped event).

Definition stopPropagation (event : Event) : Event :=
  mkEvent (targetValue event) (defaultPrevented event) true.

Section Methods.
Context {World : Type}.

(** Lines 14-20. *)
Definition constructor (props : ICommitMessageProps World)
  : Component World :=
  mkComponent props (mkState "").

(** [this.setState(s)], for a state with the one property [title]. *)
Definition setState (c : Component World) (s : ICommitMessageState)
  : Component World :=
  mkComponent (props c) s.

(** Lines 25-27. *)
Definition handleTitleChange (c : Component World) (event : Event)
  : Component World :=
  setState c (mkState (targetValue event)).

(** Lines 29-33: the callback gets the current title, the title is
    cleared, the default action of the event is prevented. *)
Definition handleSubmit (c : Component World) (event : Event) (w : World)
  : Component World * Event * World :=
  let w' := onCreateCommit (props c) (title (state c)) w in
  let c' := setState c (mkState "") in
  (c', preventDefault event, w').

(** Truth value of a [string | null] in a condition: [null] and the empty
    string are falsy. *)
Definition truthyString (s : option string) : bool :=
  match s with
  | Some s => negb (s =? "")
  | None => false
  end.

(** Line 36. *)
Definition branchName (c : Component World) : string :=
  if truthyString (branch (props c))
  then match branch (props c) with Some b => b | None => "" end
  else "master".

End Methods.

(** The three arrow functions of [render]. *)
Inductive Handler : Type :=
| StopPropagation     (* event => event.stopPropagation() *)
| HandleTitleChange   (* event => this.handleTitleChange(event) *)
| HandleSubmit.       (* event => this.handleSubmit(event) *)

(** The elements [render] returns: a tag with its string attributes, its
    event handlers and its children, or a text. *)
Local Unset Elimination Schemes.
Inductive Element : Type :=
| Tag (tag : string) (attributes : list (string * string))
      (handlers : list (string * Handler)) (children : list Element)
| Text (text : string).
Local Set Elimination Schemes.

(** Lines 35-49. *)
Definition render {World : Type} (c : Component World) : Element :=
  Tag "form" [("id", "commit-message")] [("onSubmit", StopPropagation)]
    [ Tag "input"
        [("type", "text"); ("placeholder", "Commit summary");
         ("value", title (state c))]
        [("onChange", HandleTitleChange)] [];
      Tag "button" [] [("onClick", HandleSubmit)]
        [ Text "Commit to ";
          Tag "strong" [] [] [Text (branchName c)] ] ].

(** An event reaching one of the handlers of the rendered form. *)
Definition fire {World : Type} (h : Handler) (event : Event)
    (cw : Component World * World) : Component World * Event * World :=
  let (c, w) := cw in
  match h with
  | StopPropagation => (c, stopPropagation event, w)
  | HandleTitleChange => (handleTitleChange c event, event, w)
  | HandleSubmit => handleSubmit c event w
  end.

(** A sequence of events, each handled before the next arrives. *)
Fixpoint run {World : Type} (events : list (Handler * Event))
    (cw : Component World * World) : Component World * World :=
  match events with
  | [] => cw
  | (h, event) :: events' =>
      let '(c', _, w') := fire h event cw in
      run events' (c', w')
  end.

(** The text shown by an element. *)
Fixpoint textContent (e : Element) : string :=
  match e with
  | Text s => s
  | Tag _ _ _ children =>
      (fix all (l : list Element) : string :=
         match l with
         | [] => ""
         | child :: l' => textContent child ++ all l'
         end) children
  end.

(** The children of the first [button] among some elements. *)
Fixpoint buttonOf (l : list Element) : list Element :=
  match l with
  | [] => []
  | Tag tag _ _ children :: l' =>
      if tag =? "button" then children else buttonOf l'
  | Text _ :: l' => buttonOf l'
  end.

(** The [value] attribute of the first [input] among some elements. *)
Fixpoint inputValueOf (l : list Element) : option string :=
  match l with
  | [] => None
  | Tag tag attributes _ _ :: l' =>
      if tag =? "input"
      then option_map snd
             (find (fun a => fst a =? "value") attributes)
      else inputValueOf l'
  | Text _ :: l' => inputValueOf l'
  end.

Definition childrenOf (e : Element) : list Element :=
  match e with
  | Tag _ _ _ children => children
  | Text _ => []
  end.

(** The text shown by some elements, one after the other. *)
Definition textOf (l : list Element) : string :=
  String.concat "" (map textContent l).


(** A callback that records the titles it is called with, latest
    first. *)
Definition recording : string -> list string -> list string := cons.

End CommitMessage.

(** ** Reading the tables back: what [getRepositories] computes *)

Module Invariants.
Import Models Dexie Schema Transaction RepositoriesStore.

(** The value the loop body builds for one record when no operation is
    rejected, read off the tables directly; [None] when a record the
    loop body dereferences is missing. *)
Definition inflation (d : Database) (repo : Stored IRepository)
  : option Repository :=
  if truthy (gitHubRepositoryID (fields repo)) then
    match get (gitHubRepositories d) (gitHubRepositoryID (fields repo)) with
    | Some g =>
        match get (owners d) (Some (ownerID (fields g))) with
        | Some o =>
            Some (mkRepository (path (fields repo))
                    (Some (mkGitHubRepository (name (fields g))
                             (mkOwner (login (fields o)) (endpoint (fields o)))
                             (private (fields g)) (fork (fields g))
                             (htmlURL (fields g))))
                    (Some (id repo)))
        | None => None
        end
    | None => None
    end
  else Some (mkRepository (path (fields repo)) None (Some (id repo))).

(** Every reference of every record of [repositories] resolves. *)
Definition intact (d : Database) : bool :=
  forallb (fun repo =>
             match inflation d repo with Some _ => true | None => false end)
          (rows (repositories d)).

Fixpoint inflations (d : Database) (l : list (Stored IRepository))
  : option (list Repository) :=
  match l with
  | [] => Some []
  | repo :: l' =>
      match inflation d repo, inflations d l' with
      | Some x, Some xs => Some (x :: xs)
      | _, _ => None
      end
  end.

(** The Repository [getRepositories] builds from a record of
    [repositories], the record of [gitHubRepositories] it links to and
    that one's record of [owners]. *)
Definition inflated (repo : Stored IRepository)
    (g : Stored IGitHubRepository) (o : Stored IOwner) : Repository :=
  mkRepository (path (fields repo))
    (Some (mkGitHubRepository (name (fields g))
             (mkOwner (login (fields o)) (endpoint (fields o)))
             (private (fields g)) (fork (fields g)) (htmlURL (fields g))))
    (Some (id repo)).

(** *** The tables after a committed [addRepository] *)

(** The owner id step 1 of [addRepository] settles on, and the [owners]
    table after it. *)
Definition resolveOwner (d : Database) (o : Owner) : Z * Table IOwner :=
  match first login (whereEqualsIgnoreCase (owners d) login (getLogin o)) with
  | Some existingOwner => (id existingOwner, owners d)
  | None => add (owners d) (mkIOwner (getLogin o) (getEndpoint o))
  end.

(** The id [addRepository] assigns and the tables it commits. *)
Definition added (repo : Repository) (d : Database) : Z * Database :=
  match getGitHubRepository repo with
  | Some g =>
      let (ownerID', ot) := resolveOwner d (getOwner g) in
      let (k, gt) :=
        add (gitHubRepositories d)
            (mkIGitHubRepository (getName g) ownerID' (getPrivate g)
                                 (getFork g) (getHTMLURL g)) in
      let (n, rt) :=
        add (repositories d) (mkIRepository (getPath repo) (Some k)) in
      (n, mkDatabase rt gt ot)
  | None =>
      let (n, rt) :=
        add (repositories d) (mkIRepository (getPath repo) None) in
      (n, mkDatabase rt (gitHubRepositories d) (owners d))
  end.

(** *** Well-formed tables and consistent databases *)

(** The keys of a table are those its key generator has handed out, in
    increasing order. *)
Definition wfTable {V : Type} (t : Table V) : Prop :=
  1 <= nextID t /\
  Forall (fun r => 1 <= id r < nextID t) (rows t) /\
  StronglySorted Z.lt (map (@id V) (rows t)).

Definition lowerLogin (o : Stored IOwner) : string :=
  toLowerCase (login (fields o)).

(** The invariants of the data model: keys are generated, no two owners
    have the same login up to case, every link of a repository leads to a
    hosted repository and every hosted repository to an owner. *)
Record consistent (d : Database) : Prop := mkConsistent
  { wf_repositories : wfTable (repositories d);
    wf_gitHubRepositories : wfTable (gitHubRepositories d);
    wf_owners : wfTable (owners d);
    owners_unique : NoDup (map lowerLogin (rows (owners d)));
    repositories_linked :
      Forall (fun repo =>
                match gitHubRepositoryID (fields repo) with
                | None => True
                | Some k => get (gitHubRepositories d) (Some k) <> None
                end)
             (rows (repositories d));
    gitHubRepositories_owned :
      Forall (fun g => get (owners d) (Some (ownerID (fields g))) <> None)
             (rows (gitHubRepositories d)) }.

(** One call of a public method of the store, whatever the store rejects
    during it. *)
Inductive step (d : Database) : Database -> Prop :=
| step_getRepositories plan res d' :
    getRepositories plan d = (res, d') -> step d d'
| step_addRepository repo plan res d' :
    addRepository repo plan d = (res, d') -> step d d'
| step_updateGitHubRepository repository plan res d' :
    updateGitHubRepository repository plan d = (res, d') -> step d d'.

Inductive steps : Database -> Database -> Prop :=
| steps_refl d : steps d d
| steps_step d d' d'' : step d d' -> steps d' d'' -> steps d d''.

(** The databases the store can get into from a new, empty one. *)
Definition reachable (d : Database) : Prop := steps emptyDatabase d.

(** The owner id stored with the hosted repository that the record of
    repository [r] links to. *)
Definition ownerIDOf (d : Database) (r : Repository) : option Z :=
  match get (repositories d) (getID r) with
  | Some row =>
      match get (gitHubRepositories d) (gitHubRepositoryID (fields row)) with
      | Some g => Some (ownerID (fields g))
      | None => None
      end
  | None => None
  end.

(** What later calls keep of a database: the records of [owners] and of
    [repositories], and under every key of [gitHubRepositories] a record
    with the same owner. *)
Definition extends (d d' : Database) : Prop :=
  (forall o, In o (rows (owners d)) -> In o (rows (owners d'))) /\
  (forall repo, In repo (rows (repositories d)) ->
                In repo (rows (repositories d'))) /\
  (forall k g, get (gitHubRepositories d) (Some k) = Some g ->
               exists g', get (gitHubRepositories d') (Some k) = Some g' /\
                          ownerID (fields g') = ownerID (fields g)).

End Invariants.

(** ** Sample data *)

Module Samples.
Import Models Dexie Schema.
Local Open Scope string_scope.

(** A store holding one local repository without hosted counterpart, and
    the state [updateGitHubRepository] is asked to persist for it. *)
Definition unlinked : Database :=
  mkDatabase (mkTable [mkStored 1 (mkIRepository "/repo" None)] 2) empty empty.

Definition desired : Repository :=
  mkRepository "/repo"
    (Some (mkGitHubRepository "proj" (mkOwner "Alice" "https://api.example.com")
             false false "https://example.com/a/proj"))
    (Some 1).

(** A store whose one local repository links to a hosted repository
    that is not there. *)
Definition dangling : Database :=
  mkDatabase (mkTable [mkStored 1 (mkIRepository "/repo" (Some 7))] 2)
             empty empty.

(** The scenario of the specification: a repository at [/repo] with
    the hosted repository [proj] of [Alice]. *)
Definition proj : GitHubRepository :=
  mkGitHubRepository "proj" (mkOwner "Alice" "https://api.example.com")
                     false false "https://example.com/a/proj".

Definition repoOfAlice : Repository := mkRepository "/repo" (Some proj) None.

(** The tables after [repoOfAlice] has been added to an empty store. *)
Definition withAlice : Database :=
  mkDatabase
    (mkTable [mkStored 1 (mkIRepository "/repo" (Some 1))] 2)
    (mkTable [mkStored 1 (mkIGitHubRepository "proj" 1 false false
                            "https://example.com/a/proj")] 2)
    (mkTable [mkStored 1 (mkIOwner "Alice" "https://api.example.com")] 2).

(** Two hosted repositories whose owner logins differ in case only. *)
Definition ofBob : Repository :=
  mkRepository "/one"
    (Some (mkGitHubRepository "one" (mkOwner "bob" "https://api.example.com")
             false false "https://example.com/bob/one"))
    None.

Definition ofBOB : Repository :=
  mkRepository "/two"
    (Some (mkGitHubRepository "two" (mkOwner "BOB" "https://ghe.example.com")
             true false "https://example.com/BOB/two"))
    None.

End Samples.

(** ** The tables after a committed [updateGitHubRepository] *)

Module Updates.
Import Models Dexie Schema Transaction RepositoriesStore.

(** The record [updateGitHubRepository] puts in place of the existing
    record [g]: the input's name, private, fork and htmlURL, and the
    owner id [g] already had. *)
Definition replacement (g : Stored IGitHubRepository)
    (newGitHubRepo : GitHubRepository) : IGitHubRepository :=
  mkIGitHubRepository (getName newGitHubRepo) (ownerID (fields g))
    (getPrivate newGitHubRepo) (getFork newGitHubRepo)
    (getHTMLURL newGitHubRepo).

(** The tables [updateGitHubRepository] commits; [None] when one of the
    values its body dereferences is missing. *)
Definition updated (repository : Repository) (d : Database)
  : option Database :=
  match get (repositories d) (getID repository) with
  | Some localRepo =>
      match get (gitHubRepositories d)
                (gitHubRepositoryID (fields localRepo)) with
      | Some g =>
          match getGitHubRepository repository with
          | Some newGitHubRepo =>
              Some (withGitHubRepositories d
                      (snd (put (gitHubRepositories d)
                                (replacement g newGitHubRepo)
                                (Some (id g)))))
          | None => None
          end
      | None => None
      end
  | None => None
  end.

End Updates.

(** ** Facts about tables *)

Module TableFacts.
Import Dexie Invariants.

Section Tables.
Context {V : Type}.
Implicit Types (t : Table V) (l : list (Stored V)) (r : Stored V).

Lemma find_snoc (f : Stored V -> bool) l r :
  find f (l ++ [r]) =
  match find f l with
  | Some x => Some x
  | None => if f r then Some r else None
  end.
Proof.
  induction l as [|x l IH]; simpl; [reflexivity|].
  destruct (f x); [reflexivity|exact IH].
Qed.

Lemma get_In t k r : get t (Some k) = Some r -> In r (rows t) /\ id r = k.
Proof.
  cbn [get]. intros H. apply find_some in H. destruct H as [Hin Hk].
  split; [exact Hin|]. apply Z.eqb_eq, Hk.
Qed.

Lemma sorted_snoc (ks : list Z) (k : Z) :
  StronglySorted Z.lt ks -> Forall (fun x => x < k) ks ->
  StronglySorted Z.lt (ks ++ [k]).
Proof.
  induction 1 as [|x ks Hs IH Hx]; intros Hall; simpl.
  - repeat constructor.
  - inversion Hall; subst. constructor; [auto|].
    apply Forall_app. split; [exact Hx|]. repeat constructor. assumption.
Qed.

(** Under sorted keys a record of the table is the one [get] finds under
    its key. *)
Lemma In_get_sorted l r :
  StronglySorted Z.lt (map (@id V) l) -> In r l ->
  find (hasKey (id r)) l = Some r.
Proof.
  induction l as [|x l IH]; simpl; intros Hs Hin; [contradiction|].
  inversion Hs as [|? ? Hs' Hx]; subst.
  destruct Hin as [->|Hin].
  - unfold hasKey. rewrite Z.eqb_refl. reflexivity.
  - unfold hasKey at 1.
    destruct (id x =? id r) eqn:E.
    + apply Z.eqb_eq in E. rewrite Forall_forall in Hx.
      specialize (Hx (id r) (in_map (@id V) _ _ Hin)). lia.
    + apply IH; assumption.
Qed.

Lemma In_get t r : wfTable t -> In r (rows t) -> get t (Some (id r)) = Some r.
Proof.
  intros (_ & _ & Hs) Hin. apply In_get_sorted; assumption.
Qed.

Lemma wfTable_empty : wfTable (@empty V).
Proof.
  unfold wfTable, empty; cbn. split; [lia|]. split; constructor.
Qed.

Lemma wfTable_add t v : wfTable t -> wfTable (snd (add t v)).
Proof.
  intros (Hn & Hall & Hs). unfold wfTable; cbn.
  split; [lia|]. split.
  - apply Forall_app. split.
    + eapply Forall_impl; [|exact Hall]. cbn. intros; lia.
    + repeat constructor; cbn; lia.
  - rewrite map_app. cbn. apply sorted_snoc; [exact Hs|].
    rewrite Forall_map. eapply Forall_impl; [|exact Hall]. cbn. intros; lia.
Qed.

Lemma get_add_old t v k r :
  get t (Some k) = Some r -> get (snd (add t v)) (Some k) = Some r.
Proof.
  cbn. intros H. rewrite find_snoc, H. reflexivity.
Qed.

Lemma get_add_new t v :
  wfTable t ->
  get (snd (add t v)) (Some (nextID t)) = Some (mkStored (nextID t) v).
Proof.
  intros (_ & Hall & _). cbn. rewrite find_snoc.
  destruct (find (hasKey (nextID t)) (rows t)) as [x|] eqn:E.
  - apply find_some in E. destruct E as [Hin Hk].
    apply Z.eqb_eq in Hk. rewrite Forall_forall in Hall.
    specialize (Hall x Hin). lia.
  - unfold hasKey. cbn. rewrite Z.eqb_refl. reflexivity.
Qed.

Lemma get_add_some t v k :
  get t (Some k) <> None -> get (snd (add t v)) (Some k) <> None.
Proof.
  destruct (get t (Some k)) as [r|] eqn:E; [|congruence].
  intros _. rewrite (get_add_old _ v _ E). discriminate.
Qed.

(** [put] under a key the table has: the record under that key is
    replaced, all others and the keys stay. *)
Lemma upsert_existing l k v :
  StronglySorted Z.lt (map (@id V) l) ->
  find (hasKey k) l <> None ->
  map (@id V) (upsert k v l) = map (@id V) l /\
  forall k', find (hasKey k') (upsert k v l) =
             if k' =? k then Some (mkStored k v) else find (hasKey k') l.
Proof.
  induction l as [|x l IH]; simpl; intros Hs Hfind; [congruence|].
  inversion Hs as [|? ? Hs' Hx]; subst.
  unfold hasKey at 1 in Hfind.
  destruct (id x =? k) eqn:E.
  - apply Z.eqb_eq in E. split; [cbn; congruence|].
    intros k'. cbn. unfold hasKey at 1 3. cbn. rewrite E.
    rewrite (Z.eqb_sym k k'). destruct (k' =? k); reflexivity.
  - destruct (find (hasKey k) l) as [y|] eqn:Ey; [|congruence].
    apply find_some in Ey. destruct Ey as [Hin Hk]. apply Z.eqb_eq in Hk.
    rewrite Forall_forall in Hx.
    specialize (Hx (id y) (in_map (@id V) _ _ Hin)).
    assert (Hlt : (k <? id x) = false) by (apply Z.ltb_ge; lia).
    rewrite Hlt.
    destruct (IH Hs' Hfind) as [IHk IHf].
    split; [cbn; congruence|].
    intros k'. cbn. rewrite IHf. unfold hasKey at 1 3.
    destruct (id x =? k') eqn:E'; [|reflexivity].
    apply Z.eqb_eq in E'. apply Z.eqb_neq in E.
    assert (Hne : (k' =? k) = false) by (apply Z.eqb_neq; congruence).
    rewrite Hne. reflexivity.
Qed.

Lemma upsert_In l k v r :
  In r (upsert k v l) -> r = mkStored k v \/ In r l.
Proof.
  induction l as [|x l IH]; simpl.
  - intros [<-|[]]. auto.
  - destruct (id x =? k).
    + intros [<-|Hin]; auto.
    + destruct (k <? id x).
      * intros [<-|Hin]; auto.
      * intros [<-|Hin]; auto. destruct (IH Hin); auto.
Qed.

Lemma wfTable_put_existing t k v :
  wfTable t -> get t (Some k) <> None ->
  wfTable (snd (put t v (Some k))).
Proof.
  intros (Hn & Hall & Hs) Hget. cbn [get] in Hget.
  destruct (@upsert_existing (rows t) k v Hs Hget) as [Hkeys _].
  destruct (find (hasKey k) (rows t)) as [y|] eqn:Ey; [|congruence].
  apply find_some in Ey. destruct Ey as [Hin Hk]. apply Z.eqb_eq in Hk.
  rewrite Forall_forall in Hall. pose proof (Hall y Hin) as Hy.
  unfold wfTable; cbn. split; [lia|]. split.
  - rewrite Forall_forall. intros r Hr.
    apply upsert_In in Hr. destruct Hr as [->|Hr]; cbn.
    + lia.
    + specialize (Hall r Hr). lia.
  - rewrite Hkeys. exact Hs.
Qed.

End Tables.

End TableFacts.

(** ** Facts about transaction bodies *)

Module TxFacts.
Import Models Dexie Schema Transaction RepositoriesStore Invariants.

Lemma yieldRead_inv (A : Type) (op : Database -> A) st res st' :
  yieldRead op st = (res, st') ->
  db st' = db st /\ mode st' = mode st /\
  (res = Err AbortError \/ res = Ok (op (db st))).
Proof.
  unfold yieldRead. intros H.
  destruct (faults st) as [|[] fs]; inversion H; subst; simpl; auto.
Qed.

Lemma yieldRead_healthy (A : Type) (op : Database -> A) st :
  faults st = [] ->
  yieldRead op st = (Ok (op (db st)), st).
Proof.
  unfold yieldRead. destruct st as [d fs m]; simpl. intros ->. reflexivity.
Qed.

Lemma yieldWrite_inv (A : Type) (op : Database -> A * Database) st res st' :
  mode st = rw ->
  yieldWrite op st = (res, st') ->
  mode st' = rw /\
  ((res = Err AbortError /\ db st' = db st) \/
   (res = Ok (fst (op (db st))) /\ db st' = snd (op (db st)))).
Proof.
  unfold yieldWrite. intros Hm H. rewrite Hm in H.
  destruct (faults st) as [|[] fs]; try destruct (op (db st)) as [a d1];
    inversion H; subst; simpl; auto.
Qed.

Lemma yieldWrite_healthy (A : Type) (op : Database -> A * Database) st :
  faults st = [] -> mode st = rw ->
  yieldWrite op st =
  (Ok (fst (op (db st))), mkTxState (snd (op (db st))) [] rw).
Proof.
  unfold yieldWrite. intros -> ->. simpl.
  destruct (op (db st)); reflexivity.
Qed.

Lemma transaction_rollback (A : Type) m (body : Tx A) plan d e d' :
  transaction m body plan d = (Err e, d') -> d' = d.
Proof.
  unfold transaction.
  destruct (body _) as [[a|e'] st]; [destruct (faults st) as [|[] fs]|];
    intros H; inversion H; reflexivity.
Qed.

Lemma transaction_commit (A : Type) m (body : Tx A) plan d a d' :
  transaction m body plan d = (Ok a, d') ->
  exists st, body (mkTxState d plan m) = (Ok a, st) /\ db st = d'.
Proof.
  unfold transaction.
  destruct (body _) as [[a'|e'] st]; [destruct (faults st) as [|[] fs]|];
    intros H; inversion H; subst; eauto.
Qed.

Lemma inflate_healthy repo st :
  faults st = [] ->
  inflate repo st =
  (match inflation (db st) repo with Some x => Ok x | None => Err TypeError end,
   st).
Proof.
  intros Hf. unfold inflate, inflation.
  destruct (truthy (gitHubRepositoryID (fields repo))); [|reflexivity].
  unfold bind. rewrite yieldRead_healthy by assumption.
  destruct (get (gitHubRepositories (db st)) _) as [g|]; cbn [prop ret throw];
    [|reflexivity].
  rewrite yieldRead_healthy by assumption.
  destruct (get (owners (db st)) _) as [o|]; reflexivity.
Qed.

Lemma inflate_inv repo st res st' :
  inflate repo st = (res, st') ->
  db st' = db st /\
  match res with
  | Ok x => inflation (db st) repo = Some x
  | Err _ => True
  end.
Proof.
  unfold inflate, inflation.
  destruct (truthy (gitHubRepositoryID (fields repo)));
    [|intros H; inversion H; subst; split; reflexivity].
  unfold bind.
  destruct (yieldRead _ st) as [[g|e] st1] eqn:E1;
    apply yieldRead_inv in E1; destruct E1 as (Hd1 & _ & E);
    [|intros H; inversion H; subst; split; [congruence|exact I]].
  destruct E as [E|E]; [discriminate|]. inversion E; subst g; clear E.
  destruct (get (gitHubRepositories (db st)) _) as [g|]; cbn [prop ret throw];
    [|intros H; inversion H; subst; split; [congruence|exact I]].
  destruct (yieldRead _ st1) as [[o|e] st2] eqn:E2;
    apply yieldRead_inv in E2; destruct E2 as (Hd2 & _ & E);
    [|intros H; inversion H; subst; split; [congruence|exact I]].
  destruct E as [E|E]; [discriminate|]. inversion E; subst o; clear E.
  rewrite Hd1. cbn [get].
  destruct (find _ (rows (owners (db st)))) as [o|]; cbn [prop ret throw];
    intros H; inversion H; subst; split; solve [congruence | exact I].
Qed.

Lemma forOf_inflate_inv l : forall st res st',
  forOf l inflate st = (res, st') ->
  db st' = db st /\
  match res with
  | Ok xs => inflations (db st) l = Some xs
  | Err _ => True
  end.
Proof.
  induction l as [|repo l IH]; simpl; intros st res st' H.
  - inversion H; subst; auto.
  - unfold bind in H.
    destruct (inflate repo st) as [[x|e] st1] eqn:E1;
      apply inflate_inv in E1; destruct E1 as (Hd1 & Hx).
    + destruct (forOf l inflate st1) as [[xs|e] st2] eqn:E2;
        apply IH in E2; destruct E2 as (Hd2 & Hxs).
      * inversion H; subst. split; [congruence|].
        rewrite Hx. rewrite Hd1 in Hxs. rewrite Hxs. reflexivity.
      * inversion H; subst. split; [congruence|exact I].
    + inversion H; subst. split; [congruence|exact I].
Qed.

Lemma forOf_inflate_healthy l : forall st,
  faults st = [] ->
  forOf l inflate st =
  (match inflations (db st) l with Some xs => Ok xs | None => Err TypeError end,
   st).
Proof.
  induction l as [|repo l IH]; simpl; intros st Hf; [reflexivity|].
  unfold bind. rewrite inflate_healthy by assumption.
  destruct (inflation (db st) repo) as [x|]; [|reflexivity].
  rewrite IH by assumption.
  destruct (inflations (db st) l); reflexivity.
Qed.

Lemma getRepositories_inv plan d res d' :
  getRepositories plan d = (res, d') ->
  d' = d /\
  match res with
  | Ok l => inflations d (rows (repositories d)) = Some l
  | Err _ => True
  end.
Proof.
  unfold getRepositories, transaction, bind. intros H.
  destruct (yieldRead _ _) as [[repos|e] st1] eqn:E1;
    apply yieldRead_inv in E1; destruct E1 as (Hd1 & _ & E);
    [|inversion H; subst; auto].
  destruct E as [E|E]; [discriminate|]. inversion E; subst repos; clear E.
  destruct (forOf _ inflate st1) as [[l|e] st2] eqn:E2;
    apply forOf_inflate_inv in E2; destruct E2 as (Hd2 & Hl);
    [|inversion H; subst; auto].
  simpl in Hd1. rewrite Hd1 in Hd2, Hl.
  destruct (faults st2) as [|[] fs]; inversion H; subst; auto.
Qed.

Lemma getRepositories_healthy d :
  getRepositories [] d =
  (match inflations d (rows (repositories d)) with
   | Some l => Ok l
   | None => Err TypeError
   end, d).
Proof.
  unfold getRepositories, transaction, bind.
  rewrite yieldRead_healthy by reflexivity.
  rewrite forOf_inflate_healthy by reflexivity. simpl.
  destruct (inflations d _); reflexivity.
Qed.

Lemma inflations_nth d l : forall xs i repo,
  inflations d l = Some xs ->
  nth_error l i = Some repo ->
  exists x, inflation d repo = Some x /\ nth_error xs i = Some x.
Proof.
  induction l as [|r0 l IH]; intros xs i repo H Hi.
  - destruct i; discriminate.
  - simpl in H.
    destruct (inflation d r0) as [x|] eqn:Ex; [|discriminate].
    destruct (inflations d l) as [xs'|] eqn:Exs; [|discriminate].
    inversion H; subst xs; clear H.
    destruct i as [|i]; simpl in *.
    + inversion Hi; subst. eauto.
    + eapply IH; eauto.
Qed.

Lemma inflations_missing d l repo :
  In repo l -> inflation d repo = None -> inflations d l = None.
Proof.
  induction l as [|r0 l IH]; simpl; intros Hin Hnone; [contradiction|].
  destruct Hin as [->|Hin].
  - rewrite Hnone. reflexivity.
  - rewrite (IH Hin Hnone). destruct (inflation d r0); reflexivity.
Qed.

Lemma inflations_intact d l :
  forallb (fun repo =>
             match inflation d repo with Some _ => true | None => false end) l
  = true ->
  exists xs, inflations d l = Some xs.
Proof.
  induction l as [|r0 l IH]; simpl; intros H; [eauto|].
  apply andb_true_iff in H. destruct H as [H0 Hl].
  destruct (inflation d r0); [|discriminate].
  destruct (IH Hl) as [xs ->]. eauto.
Qed.

Ltac tx_read E :=
  match goal with
  | H : context [yieldRead ?op ?st] |- _ =>
      let a := fresh "a" in let e := fresh "e" in let st1 := fresh "st" in
      let Hd := fresh "Hd" in let Hm := fresh "Hm" in
      destruct (yieldRead op st) as [[a|e] st1] eqn:E;
      apply yieldRead_inv in E; destruct E as (Hd & Hm & E);
      [destruct E as [E|E]; [discriminate|]; inversion E; subst a; clear E
      |];
      cbn [ret throw prop] in H
  end.

Ltac tx_write E Hmode :=
  match goal with
  | H : context [yieldWrite ?op ?st] |- _ =>
      let a := fresh "a" in let e := fresh "e" in let st1 := fresh "st" in
      let Hd := fresh "Hd" in let Hm := fresh "Hm" in
      destruct (yieldWrite op st) as [[a|e] st1] eqn:E;
      (apply yieldWrite_inv in E; [|exact Hmode || congruence]);
      destruct E as (Hm & E);
      [destruct E as [(E & _)|(E & Hd)]; [discriminate|];
       inversion E; subst a; clear E
      |];
      cbn [ret throw prop] in H
  end.

Lemma addRepositoryBody_inv repo st n st' :
  mode st = rw ->
  addRepositoryBody repo st = (Ok n, st') ->
  (n, db st') = added repo (db st).
Proof.
  intros Hrw. unfold addRepositoryBody, added, resolveOwner, bind.
  destruct (getGitHubRepository repo) as [g|]; cbn [ret].
  - intros H. tx_read E1; [|discriminate].
    assert (Hrw1 : mode st0 = rw) by congruence.
    destruct (first login _) as [o|]; cbn [ret] in H |- *.
    + tx_write E2 Hrw1; [|discriminate].
      tx_write E3 Hm0; [|discriminate].
      inversion H; subst; clear H.
      rewrite Hd1, Hd0, Hd. reflexivity.
    + tx_write E2 Hrw1; [|discriminate].
      tx_write E3 Hm0; [|discriminate].
      tx_write E4 Hm1; [|discriminate].
      inversion H; subst; clear H.
      rewrite Hd2, Hd1, Hd0, Hd. reflexivity.
  - intros H. tx_write E1 Hrw; [|discriminate].
    inversion H; subst; clear H. rewrite Hd. reflexivity.
Qed.

Lemma addRepositoryBody_healthy repo d :
  addRepositoryBody repo (mkTxState d [] rw) =
  (Ok (fst (added repo d)), mkTxState (snd (added repo d)) [] rw).
Proof.
  unfold addRepositoryBody, added, resolveOwner, bind.
  destruct (getGitHubRepository repo) as [g|]; cbn [ret].
  - rewrite yieldRead_healthy by reflexivity. cbn [db].
    destruct (first login _) as [o|]; cbn [ret];
      repeat (rewrite yieldWrite_healthy by reflexivity; cbn);
      reflexivity.
  - rewrite yieldWrite_healthy by reflexivity. reflexivity.
Qed.

Lemma addRepository_inv repo plan d res d' :
  addRepository repo plan d = (res, d') ->
  match res with
  | Ok r' => r' = repositoryWithID repo (fst (added repo d)) /\
             d' = snd (added repo d)
  | Err _ => d' = d
  end.
Proof.
  unfold addRepository.
  destruct (transaction rw _ plan d) as [[n|e] d1] eqn:E; intros H;
    inversion H; subst; clear H.
  - apply transaction_commit in E. destruct E as (st & E & <-).
    apply addRepositoryBody_inv in E; [|reflexivity].
    cbn [db] in E. rewrite <- E. auto.
  - eapply transaction_rollback; eauto.
Qed.

Lemma addRepository_healthy repo d :
  addRepository repo [] d =
  (Ok (repositoryWithID repo (fst (added repo d))), snd (added repo d)).
Proof.
  unfold addRepository, transaction.
  rewrite addRepositoryBody_healthy. reflexivity.
Qed.

(** What the body of [updateGitHubRepository] has done when it returns. *)
Lemma updateGitHubRepositoryBody_ok repository st st' :
  mode st = rw ->
  updateGitHubRepositoryBody repository st = (Ok tt, st') ->
  exists localRepo g newGitHubRepo,
    get (repositories (db st)) (getID repository) = Some localRepo /\
    get (gitHubRepositories (db st))
        (gitHubRepositoryID (fields localRepo)) = Some g /\
    getGitHubRepository repository = Some newGitHubRepo /\
    db st' =
    withGitHubRepositories (db st)
      (snd (put (gitHubRepositories (db st))
                (mkIGitHubRepository (getName newGitHubRepo)
                   (ownerID (fields g)) (getPrivate newGitHubRepo)
                   (getFork newGitHubRepo) (getHTMLURL newGitHubRepo))
                (Some (id g)))).
Proof.
  intros Hrw. unfold updateGitHubRepositoryBody, bind. intros H.
  tx_read E1; [|discriminate].
  destruct (get (repositories (db st)) (getID repository)) as [localRepo|];
    cbn [prop ret throw] in H; [|discriminate].
  tx_read E2; [|discriminate]. rewrite Hd in H.
  destruct (get (gitHubRepositories (db st)) _) as [g|] eqn:Eg;
    cbn [prop ret throw] in H; [|discriminate].
  destruct (getGitHubRepository repository) as [newGitHubRepo|];
    cbn [prop ret throw] in H; [|discriminate].
  assert (Hrw1 : mode st1 = rw) by congruence.
  tx_write E3 Hrw1; [|discriminate].
  inversion H; subst; clear H.
  exists localRepo, g, newGitHubRepo.
  rewrite Hd1, Hd0, Hd. cbn [put snd withGitHubRepositories]. auto.
Qed.

(** Whatever the body of [updateGitHubRepository] does, it writes
    neither to [repositories] nor to [owners]. *)
Lemma updateGitHubRepositoryBody_frame repository st res st' :
  mode st = rw ->
  updateGitHubRepositoryBody repository st = (res, st') ->
  repositories (db st') = repositories (db st) /\
  owners (db st') = owners (db st).
Proof.
  intros Hrw. unfold updateGitHubRepositoryBody, bind. intros H.
  tx_read E1; [|inversion H; subst; rewrite Hd; auto].
  destruct (get (repositories (db st)) (getID repository)) as [localRepo|];
    cbn [prop ret throw] in H; [|inversion H; subst; rewrite Hd; auto].
  tx_read E2; [|inversion H; subst; rewrite Hd0, Hd; auto].
  destruct (get (gitHubRepositories (db st0)) _) as [g|];
    cbn [prop ret throw] in H; [|inversion H; subst; rewrite Hd0, Hd; auto].
  destruct (getGitHubRepository repository) as [newGitHubRepo|];
    cbn [prop ret throw] in H; [|inversion H; subst; rewrite Hd0, Hd; auto].
  assert (Hrw1 : mode st1 = rw) by congruence.
  tx_write E3 Hrw1.
  - inversion H; subst; clear H. rewrite Hd1, <- Hd, <- Hd0. auto.
  - destruct E3 as [(_ & Hd1)|(E3 & _)]; [|discriminate].
    inversion H; subst; clear H. rewrite Hd1, Hd0, Hd. auto.
Qed.

(** When the record the local repository links to is missing, the body
    of [updateGitHubRepository] throws without having written. *)
Lemma updateGitHubRepositoryBody_missing repository st localRepo :
  get (repositories (db st)) (getID repository) = Some localRepo ->
  get (gitHubRepositories (db st))
      (gitHubRepositoryID (fields localRepo)) = None ->
  exists e st',
    updateGitHubRepositoryBody repository st = (Err e, st') /\
    db st' = db st /\
    (faults st = [] -> e = TypeError).
Proof.
  intros Hlocal Hmissing. unfold updateGitHubRepositoryBody, bind.
  destruct (yieldRead _ st) as [[a|e] st1] eqn:E1;
    pose proof E1 as F1;
    apply yieldRead_inv in E1; destruct E1 as (Hd1 & _ & E1).
  - destruct E1 as [E1|E1]; [discriminate|]. inversion E1; subst a; clear E1.
    rewrite Hlocal. cbn [prop ret throw].
    destruct (yieldRead _ st1) as [[a|e] st2] eqn:E2;
      pose proof E2 as F2;
      apply yieldRead_inv in E2; destruct E2 as (Hd2 & _ & E2).
    + destruct E2 as [E2|E2]; [discriminate|].
      inversion E2; subst a; clear E2.
      rewrite Hd1, Hmissing. cbn [prop ret throw].
      exists TypeError, st2. split; [reflexivity|].
      split; [congruence|auto].
    + exists e, st2. split; [reflexivity|]. split; [congruence|].
      intros Hf. rewrite yieldRead_healthy in F1 by assumption.
      inversion F1; subst st1.
      rewrite yieldRead_healthy in F2 by assumption. discriminate.
  - exists e, st1. split; [reflexivity|]. split; [assumption|].
    intros Hf. rewrite yieldRead_healthy in F1 by assumption. discriminate.
Qed.

End TxFacts.

(** ** Facts about [addRepository] *)

Module AddFacts.
Import Models Dexie Schema Transaction RepositoriesStore Invariants TxFacts.

(** The link the new record of [repositories] carries. *)
Lemma added_repositories repo d :
  fst (added repo d) = nextID (repositories d) /\
  repositories (snd (added repo d)) =
  mkTable (rows (repositories d) ++
           [mkStored (nextID (repositories d))
              (mkIRepository (getPath repo)
                 (match getGitHubRepository repo with
                  | Some _ => Some (nextID (gitHubRepositories d))
                  | None => None
                  end))])
          (nextID (repositories d) + 1).
Proof.
  unfold added. destruct (getGitHubRepository repo) as [g|]; cbn.
  - destruct (resolveOwner d (getOwner g)); cbn. auto.
  - auto.
Qed.

Lemma added_gitHubRepositories repo d :
  gitHubRepositories (snd (added repo d)) =
  match getGitHubRepository repo with
  | Some g =>
      snd (add (gitHubRepositories d)
             (mkIGitHubRepository (getName g)
                (fst (resolveOwner d (getOwner g)))
                (getPrivate g) (getFork g) (getHTMLURL g)))
  | None => gitHubRepositories d
  end.
Proof.
  unfold added. destruct (getGitHubRepository repo) as [g|]; cbn.
  - destruct (resolveOwner d (getOwner g)); cbn. auto.
  - auto.
Qed.

Lemma added_owners repo d :
  owners (snd (added repo d)) =
  match getGitHubRepository repo with
  | Some g => snd (resolveOwner d (getOwner g))
  | None => owners d
  end.
Proof.
  unfold added. destruct (getGitHubRepository repo) as [g|]; cbn.
  - destruct (resolveOwner d (getOwner g)); cbn. auto.
  - auto.
Qed.

Lemma first_In (V : Type) (index : V -> string) l : forall r0,
  first index l = Some r0 -> In r0 l.
Proof.
  induction l as [|x l IH]; simpl; intros r0 H; [discriminate|].
  destruct (first index l) as [b|].
  - destruct (String.ltb _ _); inversion H; subst; auto.
  - inversion H; auto.
Qed.

Lemma first_None (V : Type) (index : V -> string) l :
  first index l = None -> l = [].
Proof.
  destruct l as [|x l]; simpl; [reflexivity|].
  destruct (first index l) as [b|]; [destruct (String.ltb _ _)|];
    discriminate.
Qed.

(** The owner step 1 settles on is in [owners] afterwards, under the id
    returned, and its login is the input's up to case. *)
Lemma resolveOwner_In d o :
  exists row,
    In row (rows (snd (resolveOwner d o))) /\
    id row = fst (resolveOwner d o) /\
    equalsIgnoreCase (login (fields row)) (getLogin o) = true.
Proof.
  unfold resolveOwner.
  destruct (first login _) as [existing|] eqn:E.
  - apply first_In in E. unfold whereEqualsIgnoreCase in E.
    apply filter_In in E. destruct E as [Hin Hcase].
    exists existing. cbn. auto.
  - exists (mkStored (nextID (owners d)) (mkIOwner (getLogin o) (getEndpoint o))).
    cbn. split; [apply in_or_app; right; left; reflexivity|].
    split; [reflexivity|]. unfold equalsIgnoreCase. apply String.eqb_refl.
Qed.

End AddFacts.

(** ** The invariants hold in every reachable database *)

Module Consistency.
Import Models Dexie Schema Transaction RepositoriesStore Invariants.
Import TableFacts TxFacts AddFacts.

Lemma equalsIgnoreCase_lower a b :
  equalsIgnoreCase a b = true <-> toLowerCase a = toLowerCase b.
Proof. unfold equalsIgnoreCase. apply String.eqb_eq. Qed.

(** With logins unique up to case, the query by login finds exactly the
    owner that has it. *)
Lemma whereEqualsIgnoreCase_unique (t : Table IOwner) o s :
  NoDup (map lowerLogin (rows t)) -> In o (rows t) ->
  equalsIgnoreCase (login (fields o)) s = true ->
  whereEqualsIgnoreCase t login s = [o].
Proof.
  unfold whereEqualsIgnoreCase. generalize (rows t) as l. intros l.
  intros Hnd Hin Hcase. apply equalsIgnoreCase_lower in Hcase.
  induction l as [|x l IH]; [contradiction|].
  cbn [map] in Hnd. inversion Hnd as [|? ? Hx Hnd']; subst.
  cbn [filter].
  destruct Hin as [->|Hin].
  - assert (E : equalsIgnoreCase (login (fields o)) s = true)
      by (apply equalsIgnoreCase_lower; exact Hcase).
    rewrite E. f_equal.
    destruct (filter _ l) as [|y ys] eqn:F; [reflexivity|].
    assert (Hy : In y (filter (fun r0 =>
                   equalsIgnoreCase (login (fields r0)) s) l))
      by (rewrite F; left; reflexivity).
    apply filter_In in Hy. destruct Hy as [Hyin Hyc].
    apply equalsIgnoreCase_lower in Hyc. exfalso. apply Hx.
    apply in_map_iff. exists y. unfold lowerLogin. split; congruence.
  - assert (E : equalsIgnoreCase (login (fields x)) s = false).
    { destruct (equalsIgnoreCase (login (fields x)) s) eqn:F; [|reflexivity].
      apply equalsIgnoreCase_lower in F. exfalso. apply Hx.
      apply in_map_iff. exists o. unfold lowerLogin. split; congruence. }
    rewrite E. apply IH; assumption.
Qed.

Lemma consistent_empty : consistent emptyDatabase.
Proof.
  constructor; cbn; try apply wfTable_empty; constructor.
Qed.

Lemma wfTable_resolveOwner d o :
  wfTable (owners d) -> wfTable (snd (resolveOwner d o)).
Proof.
  unfold resolveOwner. destruct (first login _); [auto|].
  apply wfTable_add.
Qed.

Lemma resolveOwner_get d o k :
  get (owners d) (Some k) <> None ->
  get (snd (resolveOwner d o)) (Some k) <> None.
Proof.
  unfold resolveOwner. destruct (first login _); [auto|].
  apply get_add_some.
Qed.

Lemma resolveOwner_rows d o r0 :
  In r0 (rows (owners d)) -> In r0 (rows (snd (resolveOwner d o))).
Proof.
  unfold resolveOwner. destruct (first login _); [auto|].
  cbn. intros H. apply in_or_app. auto.
Qed.

Lemma resolveOwner_unique d o :
  NoDup (map lowerLogin (rows (owners d))) ->
  NoDup (map lowerLogin (rows (snd (resolveOwner d o)))).
Proof.
  unfold resolveOwner. destruct (first login _) eqn:E; [auto|].
  apply first_None in E. intros Hnd. cbn. rewrite map_app.
  apply NoDup_app; [exact Hnd|repeat constructor; intros []|].
  intros a Ha [<-|[]]. apply in_map_iff in Ha.
  destruct Ha as (y & Hy & Hin). unfold lowerLogin in Hy. cbn in Hy.
  assert (Hf : In y (whereEqualsIgnoreCase (owners d) login (getLogin o))).
  { apply filter_In. split; [exact Hin|].
    apply equalsIgnoreCase_lower. congruence. }
  rewrite E in Hf. exact Hf.
Qed.

(** A committed [addRepository] keeps the invariants. *)
Lemma consistent_added repo d :
  consistent d -> consistent (snd (added repo d)).
Proof.
  intros [Hr Hg Ho Hu Hl Hown].
  destruct (added_repositories repo d) as [_ Hrows].
  pose proof (added_gitHubRepositories repo d) as Hgh.
  pose proof (added_owners repo d) as Hos.
  assert (Hg' : wfTable (gitHubRepositories (snd (added repo d)))).
  { rewrite Hgh. destruct (getGitHubRepository repo);
      [apply wfTable_add|]; assumption. }
  assert (Ho' : wfTable (owners (snd (added repo d)))).
  { rewrite Hos. destruct (getGitHubRepository repo);
      [apply wfTable_resolveOwner|]; assumption. }
  constructor.
  - rewrite Hrows.
    apply (wfTable_add (mkIRepository (getPath repo)
             (match getGitHubRepository repo with
              | Some _ => Some (nextID (gitHubRepositories d))
              | None => None
              end)) Hr).
  - exact Hg'.
  - exact Ho'.
  - rewrite Hos. destruct (getGitHubRepository repo);
      [apply resolveOwner_unique|]; assumption.
  - rewrite Hrows. cbn [rows]. apply Forall_app. split.
    + eapply Forall_impl; [|exact Hl]. intros r0. cbn beta.
      destruct (gitHubRepositoryID (fields r0)) as [k|]; [|auto].
      rewrite Hgh. destruct (getGitHubRepository repo);
        [apply get_add_some|auto].
    + constructor; [|constructor]. cbn [fields gitHubRepositoryID].
      destruct (getGitHubRepository repo) as [g|] eqn:Eg; [|exact I].
      rewrite Hgh. rewrite (get_add_new _ Hg). discriminate.
  - rewrite Hgh, Hos.
    destruct (getGitHubRepository repo) as [g|] eqn:Eg; [|exact Hown].
    cbn [add snd rows]. apply Forall_app. split.
    + eapply Forall_impl; [|exact Hown]. intros r0. cbn beta.
      apply resolveOwner_get.
    + constructor; [|constructor]. cbn [fields ownerID].
      destruct (resolveOwner_In d (getOwner g)) as (o & Hin & Hid & _).
      rewrite <- Hid.
      rewrite (@In_get _ _ o (@wfTable_resolveOwner d (getOwner g) Ho) Hin).
      discriminate.
Qed.

Lemma extends_refl d : extends d d.
Proof. unfold extends. eauto. Qed.

Lemma extends_trans d1 d2 d3 : extends d1 d2 -> extends d2 d3 -> extends d1 d3.
Proof.
  intros (Ho1 & Hr1 & Hg1) (Ho2 & Hr2 & Hg2).
  split; [auto|]. split; [auto|].
  intros k g H. destruct (Hg1 _ _ H) as (g' & H' & E').
  destruct (Hg2 _ _ H') as (g'' & H'' & E''). exists g''. split; congruence.
Qed.

Lemma extends_added repo d : extends d (snd (added repo d)).
Proof.
  destruct (added_repositories repo d) as [_ Hrows].
  split; [|split].
  - intros o Hin. rewrite added_owners.
    destruct (getGitHubRepository repo); [apply resolveOwner_rows|];
      assumption.
  - intros r0 Hin. rewrite Hrows. cbn. apply in_or_app. auto.
  - intros k g H. exists g. split; [|reflexivity].
    rewrite added_gitHubRepositories.
    destruct (getGitHubRepository repo); [apply get_add_old|]; assumption.
Qed.

(** A committed [updateGitHubRepository]: the record the local repository
    links to is replaced by one with the same owner. *)
Lemma updated_facts d key g info :
  consistent d ->
  get (gitHubRepositories d) key = Some g ->
  ownerID info = ownerID (fields g) ->
  let d' := withGitHubRepositories d
              (snd (put (gitHubRepositories d) info (Some (id g)))) in
  consistent d' /\ extends d d'.
Proof.
  intros [Hr Hg Ho Hu Hl Hown] Hget Hinfo d'.
  destruct key as [k|]; [|discriminate].
  destruct (get_In _ _ Hget) as [Hin Hk].
  assert (Hsome : get (gitHubRepositories d) (Some (id g)) <> None)
    by (rewrite Hk, Hget; discriminate).
  destruct Hg as (Hn & Hall & Hs).
  destruct (@upsert_existing _ (rows (gitHubRepositories d)) (id g) info
              Hs Hsome) as [Hkeys Hfind].
  assert (Hget' : forall k',
             get (gitHubRepositories d') (Some k') =
             if k' =? id g then Some (mkStored (id g) info)
             else get (gitHubRepositories d) (Some k')).
  { intros k'. cbn. apply Hfind. }
  split.
  - constructor; cbn [d' withGitHubRepositories repositories owners
                        gitHubRepositories].
    + exact Hr.
    + apply wfTable_put_existing; [repeat split; assumption|exact Hsome].
    + exact Ho.
    + exact Hu.
    + eapply Forall_impl; [|exact Hl]. intros r0. cbn beta.
      destruct (gitHubRepositoryID (fields r0)) as [k'|]; [|auto].
      intros H. fold (gitHubRepositories d'). rewrite Hget'.
      destruct (k' =? id g); [discriminate|exact H].
    + rewrite Forall_forall in Hown |- *. intros r0 Hr0. cbn in Hr0.
      apply upsert_In in Hr0. destruct Hr0 as [->|Hr0].
      * cbn [fields]. rewrite Hinfo. apply Hown, Hin.
      * apply Hown, Hr0.
  - split; [auto|]. split; [auto|].
    intros k' g0 H0. rewrite Hget'.
    destruct (k' =? id g) eqn:E.
    + apply Z.eqb_eq in E. subst k'.
      exists (mkStored (id g) info). split; [reflexivity|]. cbn [fields].
      rewrite Hinfo. rewrite <- Hk in Hget. congruence.
    + exists g0. auto.
Qed.

Lemma step_consistent d d' :
  consistent d -> step d d' -> consistent d' /\ extends d d'.
Proof.
  intros Hc Hstep. destruct Hstep as [plan res d' H|repo plan res d' H
                                     |repository plan res d' H].
  - apply getRepositories_inv in H. destruct H as [-> _].
    split; [exact Hc|apply extends_refl].
  - apply addRepository_inv in H. destruct res as [r'|e].
    + destruct H as [_ ->].
      split; [apply consistent_added, Hc|apply extends_added].
    + subst d'. split; [exact Hc|apply extends_refl].
  - unfold updateGitHubRepository in H. destruct res as [[]|e].
    + apply transaction_commit in H. destruct H as (st & Hbody & <-).
      apply updateGitHubRepositoryBody_ok in Hbody; [|reflexivity].
      destruct Hbody as (localRepo & g & newG & _ & Hget & _ & ->).
      cbn [db] in *. cbn [put snd].
      apply (@updated_facts d _ g _ Hc Hget). reflexivity.
    + apply transaction_rollback in H. subst d'.
      split; [exact Hc|apply extends_refl].
Qed.

Lemma steps_consistent d d' :
  consistent d -> steps d d' -> consistent d' /\ extends d d'.
Proof.
  intros Hc Hsteps. induction Hsteps as [d|d d' d'' Hstep Hsteps IH].
  - split; [exact Hc|apply extends_refl].
  - destruct (step_consistent Hc Hstep) as [Hc' He'].
    destruct (IH Hc') as [Hc'' He''].
    split; [exact Hc''|eapply extends_trans; eassumption].
Qed.

Lemma reachable_consistent d : reachable d -> consistent d.
Proof.
  intros H. apply (steps_consistent consistent_empty H).
Qed.

(** In a consistent database every reference resolves. *)
Lemma consistent_intact d : consistent d -> intact d = true.
Proof.
  intros [Hr Hg Ho Hu Hl Hown]. unfold intact.
  apply forallb_forall. intros repo Hin.
  rewrite Forall_forall in Hl. specialize (Hl repo Hin).
  unfold inflation.
  destruct (gitHubRepositoryID (fields repo)) as [k|] eqn:Ek; [|reflexivity].
  destruct (truthy (Some k)); [|reflexivity].
  destruct (get (gitHubRepositories d) (Some k)) as [g|] eqn:Eg;
    [|congruence].
  destruct (get_In _ _ Eg) as [Hgin _].
  rewrite Forall_forall in Hown. specialize (Hown g Hgin).
  destruct (get (owners d) (Some (ownerID (fields g)))); [reflexivity|].
  congruence.
Qed.

(** After a committed [addRepository] of an input with a hosted
    repository: the owner settled on, and what [ownerIDOf] reads for the
    returned repository. *)
Lemma added_owner repo g d :
  consistent d ->
  getGitHubRepository repo = Some g ->
  exists o,
    In o (rows (owners (snd (added repo d)))) /\
    equalsIgnoreCase (login (fields o)) (getLogin (getOwner g)) = true /\
    id o = fst (resolveOwner d (getOwner g)) /\
    ownerIDOf (snd (added repo d))
              (repositoryWithID repo (fst (added repo d))) = Some (id o).
Proof.
  intros Hc Hg. destruct Hc as [Hr Hgh Ho _ _ _].
  destruct (resolveOwner_In d (getOwner g)) as (o & Hin & Hid & Hcase).
  exists o. rewrite added_owners, Hg.
  split; [exact Hin|]. split; [exact Hcase|]. split; [exact Hid|].
  destruct (added_repositories repo d) as [Hn Hrows].
  unfold ownerIDOf. cbn [repositoryWithID getID]. rewrite Hn.
  rewrite Hg in Hrows. rewrite Hrows.
  change (mkTable (rows (repositories d) ++ ?x) _)
    with (snd (add (repositories d)
                 (mkIRepository (getPath repo)
                    (Some (nextID (gitHubRepositories d)))))).
  rewrite (get_add_new _ Hr). cbn [fields gitHubRepositoryID].
  rewrite added_gitHubRepositories, Hg.
  rewrite (get_add_new _ Hgh). cbn [fields ownerID]. congruence.
Qed.

(** [ownerIDOf] of a repository is kept by later calls. *)
Lemma ownerIDOf_extends d d' r k :
  consistent d' -> extends d d' ->
  ownerIDOf d r = Some k -> ownerIDOf d' r = Some k.
Proof.
  intros Hc (_ & Hrepos & Hgh). unfold ownerIDOf.
  destruct (getID r) as [n|]; [|discriminate].
  destruct (get (repositories d) (Some n)) as [row|] eqn:Erow; [|discriminate].
  destruct (get_In _ _ Erow) as [Hin Hid].
  apply Hrepos in Hin.
  rewrite <- Hid. rewrite (@In_get _ _ row (wf_repositories Hc) Hin).
  destruct (gitHubRepositoryID (fields row)) as [k'|]; [|discriminate].
  destruct (get (gitHubRepositories d) (Some k')) as [g|] eqn:Eg;
    [|discriminate].
  destruct (Hgh _ _ Eg) as (g' & -> & <-). auto.
Qed.

End Consistency.

(** ** Properties of [getRepositories] *)

Module GetRepositories.
Import Models Dexie Schema Transaction RepositoriesStore Invariants Samples.
Import TableFacts TxFacts AddFacts Consistency.

(** C5: a record of [repositories] whose [gitHubRepositoryID] is [null]
    comes back as a Repository without hosted repository, with the
    record's path and id, at the record's position: in every result
    [getRepositories] returns, and [getRepositories] does return one when
    nothing is rejected and the references of the table resolve. *)
Theorem getRepositories_null_link d i repo
    (Hrow : nth_error (toArray (repositories d)) i = Some repo)
    (Hnull : gitHubRepositoryID (fields repo) = None) :
  let bare := mkRepository (path (fields repo)) None (Some (id repo)) in
  (forall plan l d',
      getRepositories plan d = (Ok l, d') -> nth_error l i = Some bare) /\
  (intact d = true ->
   exists l, getRepositories [] d = (Ok l, d) /\ nth_error l i = Some bare).
Proof.
  intros bare.
  assert (Hb : inflation d repo = Some bare).
  { unfold inflation. rewrite Hnull. reflexivity. }
  assert (Hnth : forall l, inflations d (rows (repositories d)) = Some l ->
                           nth_error l i = Some bare).
  { intros l Hl. destruct (@inflations_nth d _ l i repo Hl Hrow) as (x & Hx & Hi).
    congruence. }
  split.
  - intros plan l d' H. apply getRepositories_inv in H. apply Hnth, H.
  - intros Hint. destruct (@inflations_intact d _ Hint) as [l Hl].
    exists l. rewrite getRepositories_healthy, Hl. auto.
Qed.

Lemma getRepositories_null_link_witness :
  let repo := mkStored 1 (mkIRepository "/repo"%string None) in
  nth_error (toArray (repositories unlinked)) 0 = Some repo /\
  gitHubRepositoryID (fields repo) = None /\
  intact unlinked = true /\
  exists l, getRepositories [] unlinked = (Ok l, unlinked) /\
            nth_error l 0 = Some (mkRepository "/repo"%string None (Some 1)).
Proof.
  intros repo.
  split; [reflexivity|]. split; [reflexivity|]. split; [reflexivity|].
  apply (@getRepositories_null_link unlinked 0%nat repo); reflexivity.
Defined.

(** C6: when some record of [repositories] carries a (generated, hence
    non-zero) [gitHubRepositoryID] under which [gitHubRepositories] has no
    record, or has one whose [ownerID] has no record in [owners],
    [getRepositories] propagates an error whatever else happens, and
    leaves the tables as they are; when nothing is rejected the error is
    the [TypeError] of the failed property read. *)
Theorem getRepositories_dangling_link d repo k
    (Hrow : In repo (toArray (repositories d)))
    (Hlink : gitHubRepositoryID (fields repo) = Some k)
    (Hkey : k <> 0)
    (Hdangling :
       get (gitHubRepositories d) (Some k) = None \/
       exists g, get (gitHubRepositories d) (Some k) = Some g /\
                 get (owners d) (Some (ownerID (fields g))) = None) :
  (forall plan, exists e, getRepositories plan d = (Err e, d)) /\
  getRepositories [] d = (Err TypeError, d).
Proof.
  assert (Hnone : inflation d repo = None).
  { unfold inflation. rewrite Hlink. cbn [truthy].
    apply Z.eqb_neq in Hkey. rewrite Hkey. cbn [negb].
    destruct Hdangling as [->|(g & -> & ->)]; reflexivity. }
  pose proof (@inflations_missing d _ repo Hrow Hnone) as Hall.
  unfold toArray in Hall.
  split.
  - intros plan.
    destruct (getRepositories plan d) as [[l|e] d'] eqn:E;
      apply getRepositories_inv in E; destruct E as (-> & Hl).
    + congruence.
    + eauto.
  - rewrite getRepositories_healthy, Hall. reflexivity.
Qed.

Lemma getRepositories_dangling_link_witness :
  let repo := mkStored 1 (mkIRepository "/repo"%string (Some 7)) in
  In repo (toArray (repositories dangling)) /\
  gitHubRepositoryID (fields repo) = Some 7 /\
  7 <> 0 /\
  get (gitHubRepositories dangling) (Some 7) = None /\
  getRepositories [] dangling = (Err TypeError, dangling).
Proof.
  intros repo.
  split; [left; reflexivity|]. split; [reflexivity|].
  split; [lia|]. split; [reflexivity|].
  apply (@getRepositories_dangling_link dangling repo 7);
    [left; reflexivity | reflexivity | lia | left; reflexivity].
Defined.

(** C3: round trip.  For a record of [repositories] with a link (a
    generated key, hence not 0) whose hosted-repository record and owner
    record exist, every result of [getRepositories] has at the record's
    position the Repository with exactly the stored name, private, fork,
    htmlURL, login and endpoint, and the record's path and id; and
    [getRepositories] returns when nothing is rejected and the references
    of the table resolve.  In particular, in a store satisfying the
    invariants of the data model, [addRepository] of an input with a
    hosted repository followed by [getRepositories] lists, last, the
    input's path, name, private, fork and htmlURL under the id returned,
    with the login and endpoint of the one owner record that has the
    input's login up to case: the input's own when the call inserted
    it. *)
Theorem getRepositories_round_trip :
  (forall d i repo k g o,
      nth_error (toArray (repositories d)) i = Some repo ->
      gitHubRepositoryID (fields repo) = Some k ->
      k <> 0 ->
      get (gitHubRepositories d) (Some k) = Some g ->
      get (owners d) (Some (ownerID (fields g))) = Some o ->
      (forall plan l d',
          getRepositories plan d = (Ok l, d') ->
          nth_error l i = Some (inflated repo g o)) /\
      (intact d = true ->
       exists l, getRepositories [] d = (Ok l, d) /\
                 nth_error l i = Some (inflated repo g o))) /\
  (forall d repo g,
      consistent d ->
      getGitHubRepository repo = Some g ->
      exists n d' l o,
        addRepository repo [] d = (Ok (repositoryWithID repo n), d') /\
        getRepositories [] d' = (Ok l, d') /\
        whereEqualsIgnoreCase (owners d') login (getLogin (getOwner g)) = [o] /\
        nth_error l (List.length (rows (repositories d))) =
          Some (mkRepository (getPath repo)
                  (Some (mkGitHubRepository (getName g)
                           (mkOwner (login (fields o)) (endpoint (fields o)))
                           (getPrivate g) (getFork g) (getHTMLURL g)))
                  (Some n)) /\
        (whereEqualsIgnoreCase (owners d) login (getLogin (getOwner g)) = [] ->
         mkOwner (login (fields o)) (endpoint (fields o)) = getOwner g)).
Proof.
  split.
  - intros d i repo k g o Hrow Hlink Hkey Hg Ho.
    assert (Hinf : inflation d repo = Some (inflated repo g o)).
    { unfold inflation. rewrite Hlink. cbn [truthy].
      apply Z.eqb_neq in Hkey. rewrite Hkey. cbn [negb].
      rewrite Hg, Ho. reflexivity. }
    assert (Hnth : forall l, inflations d (rows (repositories d)) = Some l ->
                             nth_error l i = Some (inflated repo g o)).
    { intros l Hl.
      destruct (@inflations_nth d _ l i repo Hl Hrow) as (x & Hx & Hi).
      congruence. }
    split.
    + intros plan l d' H. apply getRepositories_inv in H. apply Hnth, H.
    + intros Hint. destruct (@inflations_intact d _ Hint) as [l Hl].
      exists l. rewrite getRepositories_healthy, Hl. auto.
  - intros d repo g Hc Hg.
    pose proof (consistent_added repo Hc) as Hc'.
    pose proof (consistent_intact Hc') as Hint.
    destruct (@inflations_intact (snd (added repo d)) _ Hint) as [l Hl].
    destruct (resolveOwner_In d (getOwner g)) as (o & Hin & Hid & Hcase).
    pose proof (added_owners repo d) as Hos. rewrite Hg in Hos.
    rewrite <- Hos in Hin.
    exists (fst (added repo d)), (snd (added repo d)), l, o.
    split; [apply addRepository_healthy|].
    split; [rewrite getRepositories_healthy, Hl; reflexivity|].
    split; [apply whereEqualsIgnoreCase_unique;
            [apply (owners_unique Hc')|exact Hin|exact Hcase]|].
    destruct (added_repositories repo d) as [Hn Hrows]. rewrite Hg in Hrows.
    split.
    + set (row := mkStored (nextID (repositories d))
                    (mkIRepository (getPath repo)
                       (Some (nextID (gitHubRepositories d))))).
      assert (Hrow : nth_error (rows (repositories (snd (added repo d))))
                       (List.length (rows (repositories d))) = Some row).
      { rewrite Hrows. cbn [rows].
        rewrite nth_error_app2 by apply Nat.le_refl.
        rewrite Nat.sub_diag. reflexivity. }
      destruct (@inflations_nth _ _ l _ row Hl Hrow) as (x & Hx & ->).
      rewrite <- Hx. unfold inflation. cbn [row fields gitHubRepositoryID].
      assert (Hk : truthy (Some (nextID (gitHubRepositories d))) = true).
      { cbn. destruct (wf_gitHubRepositories Hc) as (Hnext & _).
        apply negb_true_iff, Z.eqb_neq. lia. }
      rewrite Hk.
      rewrite added_gitHubRepositories, Hg.
      rewrite (get_add_new _ (wf_gitHubRepositories Hc)).
      cbn [fields ownerID]. rewrite <- Hid.
      rewrite (@In_get _ _ o (wf_owners Hc') Hin).
      cbn [id name private fork htmlURL path fields]. rewrite Hn. reflexivity.
    + intros Hnone. unfold resolveOwner in Hos. rewrite Hnone in Hos.
      cbn [first add snd] in Hos. rewrite Hos in Hin. cbn [rows] in Hin.
      apply in_app_or in Hin. destruct Hin as [Hold|[<-|[]]].
      * exfalso.
        assert (Hf : In o (whereEqualsIgnoreCase (owners d) login
                             (getLogin (getOwner g))))
          by (apply filter_In; auto).
        rewrite Hnone in Hf. exact Hf.
      * cbn. destruct (getOwner g); reflexivity.
Qed.

Lemma getRepositories_round_trip_witness :
  let row := mkStored 1 (mkIRepository "/repo"%string (Some 1)) in
  let g := mkStored 1 (mkIGitHubRepository "proj"%string 1 false false
                         "https://example.com/a/proj"%string) in
  let o := mkStored 1 (mkIOwner "Alice"%string
                         "https://api.example.com"%string) in
  (nth_error (toArray (repositories withAlice)) 0 = Some row /\
   gitHubRepositoryID (fields row) = Some 1 /\
   1 <> 0 /\
   get (gitHubRepositories withAlice) (Some 1) = Some g /\
   get (owners withAlice) (Some (ownerID (fields g))) = Some o /\
   intact withAlice = true /\
   exists l, getRepositories [] withAlice = (Ok l, withAlice) /\
             nth_error l 0
             = Some (mkRepository "/repo"%string (Some proj) (Some 1))) /\
  (consistent emptyDatabase /\
   getGitHubRepository repoOfAlice = Some proj /\
   exists n d' l,
     addRepository repoOfAlice [] emptyDatabase
     = (Ok (repositoryWithID repoOfAlice n), d') /\
     getRepositories [] d' = (Ok l, d') /\
     nth_error l 0 = Some (mkRepository "/repo"%string (Some proj) (Some n))).
Proof.
  intros row g o. split.
  - split; [reflexivity|]. split; [reflexivity|]. split; [lia|].
    split; [reflexivity|]. split; [reflexivity|]. split; [reflexivity|].
    apply (proj1 getRepositories_round_trip withAlice 0%nat row 1 g o);
      [reflexivity | reflexivity | lia | reflexivity | reflexivity
      | reflexivity].
  - split; [exact consistent_empty|]. split; [reflexivity|].
    destruct (proj2 getRepositories_round_trip emptyDatabase repoOfAlice proj
                consistent_empty eq_refl)
      as (n & d' & l & o' & Hadd & Hget & _ & Hnth & Hnew).
    exists n, d', l. split; [exact Hadd|]. split; [exact Hget|].
    specialize (Hnew eq_refl). rewrite Hnew in Hnth. exact Hnth.
Defined.

End GetRepositories.

(** ** Properties of [addRepository] *)

Module AddRepository.
Import Models Dexie Schema Transaction RepositoriesStore Invariants Samples.
Import TableFacts TxFacts AddFacts Consistency.

(** C7: [addRepository] returns the input with the generated id of the
    new record of [repositories] and every other field as in the input:
    when nothing is rejected it does return, and in every run that
    returns the value is this one, built from the input and not from the
    tables. *)
Theorem addRepository_returns_input_with_id repo d :
  exists n link d',
    addRepository repo [] d =
      (Ok (mkRepository (getPath repo) (getGitHubRepository repo) (Some n)),
       d') /\
    rows (repositories d') =
      rows (repositories d) ++ [mkStored n (mkIRepository (getPath repo) link)] /\
    forall plan r' d'',
      addRepository repo plan d = (Ok r', d'') ->
      r' = mkRepository (getPath repo) (getGitHubRepository repo) (Some n) /\
      d'' = d'.
Proof.
  destruct (added_repositories repo d) as [Hn Hrows].
  eexists (fst (added repo d)), _, (snd (added repo d)).
  split; [apply addRepository_healthy|].
  split; [rewrite Hrows, Hn; reflexivity|].
  intros plan r' d'' H. apply addRepository_inv in H. exact H.
Qed.

(** C8: two calls of [addRepository] with inputs of equal path and equal
    hosted-repository data produce two records of [repositories] under
    two different generated ids, both with the input's path; nothing is
    merged. *)
Theorem addRepository_twice_distinct path' gh id1 id2 d :
  let repo1 := mkRepository path' gh id1 in
  let repo2 := mkRepository path' gh id2 in
  exists n1 n2 link1 link2 d1 d2,
    addRepository repo1 [] d = (Ok (repositoryWithID repo1 n1), d1) /\
    addRepository repo2 [] d1 = (Ok (repositoryWithID repo2 n2), d2) /\
    n1 <> n2 /\
    rows (repositories d2) =
      rows (repositories d) ++
      [mkStored n1 (mkIRepository path' link1);
       mkStored n2 (mkIRepository path' link2)] /\
    (gh <> None -> link1 <> link2) /\
    forall plan1 plan2 r1 r2 e1 e2,
      addRepository repo1 plan1 d = (Ok r1, e1) ->
      addRepository repo2 plan2 e1 = (Ok r2, e2) ->
      getID r1 = Some n1 /\ getID r2 = Some n2 /\ e2 = d2.
Proof.
  intros repo1 repo2.
  destruct (added_repositories repo1 d) as [Hn1 Hrows1].
  destruct (added_repositories repo2 (snd (added repo1 d))) as [Hn2 Hrows2].
  eexists (fst (added repo1 d)), (fst (added repo2 (snd (added repo1 d)))),
          _, _, (snd (added repo1 d)), (snd (added repo2 (snd (added repo1 d)))).
  split; [apply addRepository_healthy|].
  split; [apply addRepository_healthy|].
  split; [rewrite Hn2, Hrows1, Hn1; cbn; lia|].
  split.
  { rewrite Hrows2, Hrows1, Hn1, Hn2, Hrows1. cbn [rows nextID getPath].
    rewrite <- app_assoc. reflexivity. }
  split.
  { cbn [getGitHubRepository repo1 repo2].
    rewrite (added_gitHubRepositories repo1 d).
    destruct gh as [g|]; [|congruence]. intros _.
    cbn [getGitHubRepository repo1 add snd nextID]. intros H.
    inversion H. lia. }
  intros plan1 plan2 r1 r2 e1 e2 H1 H2.
  apply addRepository_inv in H1. destruct H1 as [-> ->].
  apply addRepository_inv in H2. destruct H2 as [-> ->].
  auto.
Qed.

(** C2: [addRepository] is all-or-nothing.  In every run, whatever the
    store rejects and wherever, either the call fails and the three
    tables are exactly as before, or it returns and the record of
    [repositories], and for an input with a hosted repository the record
    of [gitHubRepositories] it links to and the owner that one names, are
    all there.  In particular, when the store rejects the insert into
    [gitHubRepositories] after a new owner has been written inside the
    transaction, that owner record is not in the tables afterwards. *)
Theorem addRepository_atomic repo d :
  (forall plan res d',
      addRepository repo plan d = (res, d') ->
      match res with
      | Err _ => d' = d
      | Ok r' =>
          exists n link,
            getID r' = Some n /\
            rows (repositories d') =
              rows (repositories d) ++
              [mkStored n (mkIRepository (getPath repo) link)] /\
            match getGitHubRepository repo with
            | None =>
                link = None /\
                gitHubRepositories d' = gitHubRepositories d /\
                owners d' = owners d
            | Some g =>
                exists k o,
                  link = Some k /\
                  rows (gitHubRepositories d') =
                    rows (gitHubRepositories d) ++
                    [mkStored k
                       (mkIGitHubRepository (getName g) (id o) (getPrivate g)
                          (getFork g) (getHTMLURL g))] /\
                  In o (rows (owners d')) /\
                  equalsIgnoreCase (login (fields o)) (getLogin (getOwner g))
                  = true
            end
      end) /\
  (forall g,
      getGitHubRepository repo = Some g ->
      whereEqualsIgnoreCase (owners d) login (getLogin (getOwner g)) = [] ->
      let plan := [false; false; true] in
      exists st,
        addRepositoryBody repo (mkTxState d plan rw) = (Err AbortError, st) /\
        rows (owners (db st)) =
          rows (owners d) ++
          [mkStored (nextID (owners d))
             (mkIOwner (getLogin (getOwner g)) (getEndpoint (getOwner g)))] /\
        addRepository repo plan d = (Err AbortError, d)).
Proof.
  split.
  - intros plan res d' H. apply addRepository_inv in H.
    destruct res as [r'|e]; [|exact H]. destruct H as [-> ->].
    destruct (added_repositories repo d) as [Hn Hrows].
    eexists (fst (added repo d)), _. split; [reflexivity|].
    split; [rewrite Hrows, Hn; reflexivity|].
    rewrite added_gitHubRepositories, added_owners.
    destruct (getGitHubRepository repo) as [g|]; [|auto].
    destruct (resolveOwner_In d (getOwner g)) as (o & Hin & Hid & Hcase).
    exists (nextID (gitHubRepositories d)), o.
    split; [reflexivity|]. split; [|auto].
    cbn [add snd rows]. rewrite Hid. reflexivity.
  - intros g Hg Hnone plan.
    unfold addRepository, transaction, addRepositoryBody, bind.
    rewrite Hg. unfold yieldRead, yieldWrite. cbn.
    rewrite Hnone. cbn. eexists. split; [reflexivity|]. cbn. auto.
Qed.

(** C1: two committed calls of [addRepository] whose hosted
    repositories have owner logins equal up to case, in a store whose
    tables satisfy the invariants of the data model (as they do in every
    reachable database), with any calls of the store in between: after
    the second commit [owners] has exactly one record with that login up
    to case, and the hosted-repository records of both returned
    repositories carry its id. *)
Theorem addRepository_owner_dedup
    d0 repo1 repo2 g1 g2 plan1 plan2 r1 r2 d1 d1' d2
    (Hinv : consistent d0)
    (Hg1 : getGitHubRepository repo1 = Some g1)
    (Hg2 : getGitHubRepository repo2 = Some g2)
    (Hcase : equalsIgnoreCase (getLogin (getOwner g1))
                              (getLogin (getOwner g2)) = true)
    (Hadd1 : addRepository repo1 plan1 d0 = (Ok r1, d1))
    (Hbetween : steps d1 d1')
    (Hadd2 : addRepository repo2 plan2 d1' = (Ok r2, d2)) :
  exists o,
    whereEqualsIgnoreCase (owners d2) login (getLogin (getOwner g1)) = [o] /\
    ownerIDOf d2 r1 = Some (id o) /\
    ownerIDOf d2 r2 = Some (id o).
Proof.
  apply addRepository_inv in Hadd1. destruct Hadd1 as [-> ->].
  apply addRepository_inv in Hadd2. destruct Hadd2 as [-> ->].
  pose proof (consistent_added repo1 Hinv) as Hc1.
  destruct (steps_consistent Hc1 Hbetween) as [Hc1' Hext1].
  pose proof (consistent_added repo2 Hc1') as Hc2.
  pose proof (extends_added repo2 d1') as Hext2.
  destruct (added_owner repo1 Hinv Hg1) as (o & Hin & Hlogin & _ & Hown1).
  apply (proj1 Hext1) in Hin.
  assert (Hlogin2 : equalsIgnoreCase (login (fields o))
                                     (getLogin (getOwner g2)) = true).
  { apply equalsIgnoreCase_lower. apply equalsIgnoreCase_lower in Hlogin.
    apply equalsIgnoreCase_lower in Hcase. congruence. }
  pose proof (@whereEqualsIgnoreCase_unique (owners d1') o _
                (owners_unique Hc1') Hin Hlogin2) as Hquery.
  assert (Hres : resolveOwner d1' (getOwner g2) = (id o, owners d1')).
  { unfold resolveOwner. rewrite Hquery. reflexivity. }
  assert (Howners : owners (snd (added repo2 d1')) = owners d1').
  { rewrite added_owners, Hg2, Hres. reflexivity. }
  exists o. split; [|split].
  - rewrite Howners.
    apply whereEqualsIgnoreCase_unique;
      [apply (owners_unique Hc1')|exact Hin|exact Hlogin].
  - apply (ownerIDOf_extends _ Hc2 Hext2).
    apply (ownerIDOf_extends _ Hc1' Hext1). exact Hown1.
  - destruct (added_owner repo2 Hc1' Hg2) as (o2 & _ & _ & Hid2 & Hown2).
    rewrite Hown2, Hid2, Hres. reflexivity.
Qed.

Lemma addRepository_returns_input_with_id_witness :
  exists n d',
    addRepository repoOfAlice [] emptyDatabase
    = (Ok (mkRepository "/repo"%string (Some proj) (Some n)), d').
Proof.
  destruct (addRepository_returns_input_with_id repoOfAlice emptyDatabase)
    as (n & link & d' & H & _).
  exists n, d'. exact H.
Defined.

(** The value returned is not what the tables hold: added after [ofBob],
    [ofBOB] comes back with its own owner, while the store has linked it
    to the owner record of [bob] and lists it so. *)
Example addRepository_result_is_the_input :
  let d1 := snd (addRepository ofBob [] emptyDatabase) in
  let d2 := snd (addRepository ofBOB [] d1) in
  fst (addRepository ofBOB [] d1) = Ok (repositoryWithID ofBOB 2) /\
  exists listed,
    nth_error
      (match fst (getRepositories [] d2) with Ok l => l | Err _ => [] end) 1
    = Some listed /\
    getID listed = Some 2 /\
    option_map getOwner (getGitHubRepository listed)
    = Some (mkOwner "bob"%string "https://api.example.com"%string) /\
    option_map getOwner (getGitHubRepository (repositoryWithID ofBOB 2))
    = Some (mkOwner "BOB"%string "https://ghe.example.com"%string).
Proof.
  cbv zeta. split; [reflexivity|].
  eexists. split; [reflexivity|]. repeat split.
Qed.

Lemma addRepository_twice_distinct_witness :
  exists n1 n2 link1 link2 d1 d2,
    addRepository repoOfAlice [] emptyDatabase
    = (Ok (mkRepository "/repo"%string (Some proj) (Some n1)), d1) /\
    addRepository repoOfAlice [] d1
    = (Ok (mkRepository "/repo"%string (Some proj) (Some n2)), d2) /\
    n1 <> n2 /\
    rows (repositories d2) =
      [mkStored n1 (mkIRepository "/repo"%string link1);
       mkStored n2 (mkIRepository "/repo"%string link2)] /\
    link1 <> link2.
Proof.
  destruct (addRepository_twice_distinct "/repo"%string (Some proj) None None
              emptyDatabase)
    as (n1 & n2 & link1 & link2 & d1 & d2 & H1 & H2 & Hn & Hrows & Hlink & _).
  exists n1, n2, link1, link2, d1, d2.
  repeat split; try assumption. apply Hlink. discriminate.
Defined.

Lemma addRepository_atomic_witness :
  getGitHubRepository repoOfAlice = Some proj /\
  whereEqualsIgnoreCase (owners emptyDatabase) login "Alice"%string = [] /\
  addRepository repoOfAlice [false; false; true] emptyDatabase
  = (Err AbortError, emptyDatabase).
Proof.
  split; [reflexivity|]. split; [reflexivity|].
  destruct (proj2 (addRepository_atomic repoOfAlice emptyDatabase) proj
              eq_refl eq_refl) as (st & _ & _ & H).
  exact H.
Defined.

Lemma addRepository_owner_dedup_witness :
  let d1 := snd (addRepository ofBob [] emptyDatabase) in
  let d2 := snd (addRepository ofBOB [] d1) in
  consistent emptyDatabase /\
  equalsIgnoreCase "bob" "BOB" = true /\
  addRepository ofBob [] emptyDatabase = (Ok (repositoryWithID ofBob 1), d1) /\
  addRepository ofBOB [] d1 = (Ok (repositoryWithID ofBOB 2), d2) /\
  exists o,
    whereEqualsIgnoreCase (owners d2) login "bob"%string = [o] /\
    ownerIDOf d2 (repositoryWithID ofBob 1) = Some (id o) /\
    ownerIDOf d2 (repositoryWithID ofBOB 2) = Some (id o).
Proof.
  intros d1 d2. split; [exact consistent_empty|].
  split; [reflexivity|]. split; [reflexivity|]. split; [reflexivity|].
  destruct (getGitHubRepository ofBob) as [g1|] eqn:E1; [|discriminate].
  destruct (getGitHubRepository ofBOB) as [g2|] eqn:E2; [|discriminate].
  inversion E1; subst g1. inversion E2; subst g2.
  apply (@addRepository_owner_dedup emptyDatabase ofBob ofBOB _ _ [] []
           (repositoryWithID ofBob 1) (repositoryWithID ofBOB 2) d1 d1 d2
           consistent_empty E1 E2);
    [reflexivity | reflexivity | apply steps_refl | reflexivity].
Defined.

End AddRepository.

(** ** Properties of [updateGitHubRepository] *)

Module UpdateGitHubRepository.
Import Models Dexie Schema Transaction RepositoriesStore Invariants Samples.
Import TableFacts TxFacts AddFacts Consistency.

(** C9: [updateGitHubRepository] leaves the [repositories] table as it
    is, whatever the input, the tables and the store's rejections: after
    the call, and also in the tables as the transaction body leaves them,
    [repositories] is the table from before the call; no path, no id and
    no [gitHubRepositoryID] link of a record is written. *)
Theorem updateGitHubRepository_frame repository plan d :
  repositories (snd (updateGitHubRepository repository plan d))
  = repositories d /\
  repositories
    (db (snd (updateGitHubRepositoryBody repository (mkTxState d plan rw))))
  = repositories d.
Proof.
  assert (Hbody : repositories
            (db (snd (updateGitHubRepositoryBody repository
                        (mkTxState d plan rw)))) = repositories d).
  { destruct (updateGitHubRepositoryBody repository (mkTxState d plan rw))
      as [res st] eqn:E.
    apply updateGitHubRepositoryBody_frame in E; [|reflexivity].
    apply E. }
  split; [|exact Hbody].
  unfold updateGitHubRepository, transaction.
  destruct (updateGitHubRepositoryBody repository (mkTxState d plan rw))
    as [[[]|e] st]; [|reflexivity].
  cbn [snd] in Hbody.
  destruct (faults st) as [|[] fs]; cbn [snd]; auto.
Qed.

(** C10: the [ownerID] of the fetched record is read before the record
    is tested for absence.  So when the local repository's link leads to
    no record of [gitHubRepositories], [updateGitHubRepository] fails in
    every run, the body has thrown before any write (the branch that
    would insert an owner is never entered), and the three tables are as
    before. *)
Theorem updateGitHubRepository_missing_row repository d localRepo
    (Hlocal : get (repositories d) (getID repository) = Some localRepo)
    (Hmissing : get (gitHubRepositories d)
                    (gitHubRepositoryID (fields localRepo)) = None) :
  (forall plan,
      exists e st',
        updateGitHubRepositoryBody repository (mkTxState d plan rw)
        = (Err e, st') /\
        db st' = d /\
        updateGitHubRepository repository plan d = (Err e, d)) /\
  updateGitHubRepository repository [] d = (Err TypeError, d).
Proof.
  assert (Hplan : forall plan,
             exists e st',
               updateGitHubRepositoryBody repository (mkTxState d plan rw)
               = (Err e, st') /\
               db st' = d /\
               (plan = [] -> e = TypeError) /\
               updateGitHubRepository repository plan d = (Err e, d)).
  { intros plan.
    destruct (@updateGitHubRepositoryBody_missing repository
                (mkTxState d plan rw) localRepo Hlocal Hmissing)
      as (e & st' & Hbody & Hdb & He).
    exists e, st'. split; [exact Hbody|]. split; [exact Hdb|].
    split; [exact He|].
    unfold updateGitHubRepository, transaction. rewrite Hbody. reflexivity. }
  split.
  - intros plan. destruct (Hplan plan) as (e & st' & H1 & H2 & _ & H3).
    eauto.
  - destruct (Hplan []) as (e & st' & _ & _ & He & H).
    rewrite (He eq_refl) in H. exact H.
Qed.

Lemma updateGitHubRepository_missing_row_witness :
  get (repositories unlinked) (getID desired)
  = Some (mkStored 1 (mkIRepository "/repo"%string None)) /\
  get (gitHubRepositories unlinked) None = None /\
  updateGitHubRepository desired [] unlinked = (Err TypeError, unlinked).
Proof.
  split; [reflexivity|]. split; [reflexivity|].
  apply (@updateGitHubRepository_missing_row desired unlinked
           (mkStored 1 (mkIRepository "/repo"%string None))); reflexivity.
Defined.

(** C4, evaluated on the code.  [unlinked] is the store after a
    repository without hosted counterpart has been added; asked to persist
    a hosted repository for it, the call throws on the read of [ownerID]
    and inserts no owner record: [owners] is empty after the call and was
    empty when the transaction body stopped. *)
Theorem updateGitHubRepository_inserts_no_owner :
  addRepository (mkRepository "/repo"%string None None) [] emptyDatabase
  = (Ok (mkRepository "/repo"%string None (Some 1)), unlinked) /\
  updateGitHubRepository desired [] unlinked = (Err TypeError, unlinked) /\
  rows (owners unlinked) = [] /\
  rows (owners (db (snd (updateGitHubRepositoryBody desired
                           (mkTxState unlinked [] rw))))) = [].
Proof.
  repeat split.
Qed.

End UpdateGitHubRepository.

(** ** Facts about [updateGitHubRepository] *)

Module UpdateFacts.
Import Models Dexie Schema Transaction RepositoriesStore Invariants Updates.
Import TableFacts TxFacts.

Lemma updateGitHubRepositoryBody_healthy repository d :
  updateGitHubRepositoryBody repository (mkTxState d [] rw) =
  match updated repository d with
  | Some d' => (Ok tt, mkTxState d' [] rw)
  | None => (Err TypeError, mkTxState d [] rw)
  end.
Proof.
  unfold updateGitHubRepositoryBody, updated, replacement, bind.
  rewrite yieldRead_healthy by reflexivity. cbn [db].
  destruct (get (repositories d) (getID repository)) as [localRepo|];
    cbn [prop ret throw]; [|reflexivity].
  rewrite yieldRead_healthy by reflexivity. cbn [db].
  destruct (get (gitHubRepositories d) _) as [g|];
    cbn [prop ret throw]; [|reflexivity].
  destruct (getGitHubRepository repository) as [newGitHubRepo|];
    cbn [prop ret throw]; [|reflexivity].
  rewrite yieldWrite_healthy by reflexivity. reflexivity.
Qed.

Lemma updateGitHubRepository_healthy repository d :
  updateGitHubRepository repository [] d =
  match updated repository d with
  | Some d' => (Ok tt, d')
  | None => (Err TypeError, d)
  end.
Proof.
  unfold updateGitHubRepository, transaction.
  rewrite updateGitHubRepositoryBody_healthy.
  destruct (updated repository d); reflexivity.
Qed.

Lemma updateGitHubRepository_inv repository plan d res d' :
  updateGitHubRepository repository plan d = (res, d') ->
  match res with
  | Ok _ => updated repository d = Some d'
  | Err _ => d' = d
  end.
Proof.
  unfold updateGitHubRepository. intros H. destruct res as [[]|e].
  - apply transaction_commit in H. destruct H as (st & Hbody & <-).
    apply updateGitHubRepositoryBody_ok in Hbody; [|reflexivity].
    destruct Hbody as (localRepo & g & newG & Hl & Hg & Hn & ->).
    cbn [db] in *. unfold updated. rewrite Hl, Hg, Hn. reflexivity.
  - eapply transaction_rollback; eauto.
Qed.

(** A run that is not cut short by the store fails only where the run
    without rejections fails. *)
Lemma updateGitHubRepository_fails repository plan d :
  updated repository d = None ->
  exists e, updateGitHubRepository repository plan d = (Err e, d).
Proof.
  intros Hnone.
  destruct (updateGitHubRepository repository plan d) as [[[]|e] d'] eqn:E;
    apply updateGitHubRepository_inv in E.
  - congruence.
  - subst d'. eauto.
Qed.

Section Upsert.
Context {V : Type}.

Lemma upsert_find (k : Z) (v : V) l :
  find (hasKey k) (upsert k v l) = Some (mkStored k v).
Proof.
  induction l as [|x l IH]; cbn [upsert].
  - cbn. unfold hasKey. cbn. rewrite Z.eqb_refl. reflexivity.
  - destruct (id x =? k) eqn:E.
    + cbn. unfold hasKey. cbn. rewrite Z.eqb_refl. reflexivity.
    + destruct (k <? id x).
      * cbn. unfold hasKey at 1. cbn. rewrite Z.eqb_refl. reflexivity.
      * cbn. unfold hasKey at 1. rewrite E. exact IH.
Qed.

Lemma upsert_twice (k : Z) (v w : V) l :
  upsert k w (upsert k v l) = upsert k w l.
Proof.
  induction l as [|x l IH]; cbn [upsert].
  - cbn. rewrite Z.eqb_refl. reflexivity.
  - destruct (id x =? k) eqn:E.
    + cbn. rewrite Z.eqb_refl. reflexivity.
    + destruct (k <? id x) eqn:F.
      * cbn. rewrite Z.eqb_refl. reflexivity.
      * cbn. rewrite E, F, IH. reflexivity.
Qed.

End Upsert.

End UpdateFacts.

(** ** Facts about listings *)

Module ListFacts.
Import Models Dexie Schema Transaction RepositoriesStore Invariants Updates.
Import TableFacts TxFacts AddFacts Consistency UpdateFacts.

Lemma inflation_shape d repo x :
  inflation d repo = Some x ->
  getID x = Some (id repo) /\ getPath x = path (fields repo).
Proof.
  unfold inflation.
  destruct (truthy _).
  - destruct (get (gitHubRepositories d) _) as [g|]; [|discriminate].
    destruct (get (owners d) _) as [o|]; [|discriminate].
    intros H; inversion H; subst; cbn; auto.
  - intros H; inversion H; subst; cbn; auto.
Qed.

Lemma inflations_shape d l : forall xs,
  inflations d l = Some xs ->
  map getID xs = map (fun repo => Some (id repo)) l /\
  map getPath xs = map (fun repo => path (fields repo)) l.
Proof.
  induction l as [|repo l IH]; cbn [inflations]; intros xs H.
  - inversion H; subst; auto.
  - destruct (inflation d repo) as [x|] eqn:Ex; [|discriminate].
    destruct (inflations d l) as [xs'|]; [|discriminate].
    inversion H; subst xs; clear H.
    destruct (@inflation_shape d repo x Ex) as [Hi Hp].
    destruct (IH _ eq_refl) as [Hi' Hp'].
    cbn [map]. rewrite Hi, Hp, Hi', Hp'. auto.
Qed.

(** Tables that still hold every record under its key inflate a record
    to the same Repository. *)
Lemma inflation_preserved d d' repo x :
  (forall k g, get (gitHubRepositories d) (Some k) = Some g ->
               get (gitHubRepositories d') (Some k) = Some g) ->
  (forall k o, get (owners d) (Some k) = Some o ->
               get (owners d') (Some k) = Some o) ->
  inflation d repo = Some x -> inflation d' repo = Some x.
Proof.
  intros Hg Ho. unfold inflation.
  destruct (truthy _); [|auto].
  destruct (gitHubRepositoryID (fields repo)) as [k|]; [|discriminate].
  destruct (get (gitHubRepositories d) (Some k)) as [g|] eqn:Eg;
    [|discriminate].
  rewrite (Hg _ _ Eg).
  destruct (get (owners d) (Some (ownerID (fields g)))) as [o|] eqn:Eo;
    [|discriminate].
  rewrite (Ho _ _ Eo). auto.
Qed.

Lemma inflations_preserved d d' l : forall xs,
  (forall k g, get (gitHubRepositories d) (Some k) = Some g ->
               get (gitHubRepositories d') (Some k) = Some g) ->
  (forall k o, get (owners d) (Some k) = Some o ->
               get (owners d') (Some k) = Some o) ->
  inflations d l = Some xs -> inflations d' l = Some xs.
Proof.
  induction l as [|repo l IH]; cbn [inflations]; intros xs Hg Ho H; [exact H|].
  destruct (inflation d repo) as [x|] eqn:Ex; [|discriminate].
  destruct (inflations d l) as [xs'|]; [|discriminate].
  rewrite (@inflation_preserved d d' repo x Hg Ho Ex), (IH _ Hg Ho eq_refl).
  exact H.
Qed.

Lemma inflations_snoc d l repo xs x :
  inflations d l = Some xs -> inflation d repo = Some x ->
  inflations d (l ++ [repo]) = Some (xs ++ [x]).
Proof.
  revert xs. induction l as [|r0 l IH]; cbn [inflations app]; intros xs H Hx.
  - inversion H; subst. rewrite Hx. reflexivity.
  - destruct (inflation d r0) as [x0|]; [|discriminate].
    destruct (inflations d l) as [xs'|]; [|discriminate].
    inversion H; subst xs. rewrite (IH _ eq_refl Hx). reflexivity.
Qed.

Lemma added_keeps_records repo d :
  (forall k g, get (gitHubRepositories d) (Some k) = Some g ->
               get (gitHubRepositories (snd (added repo d))) (Some k)
               = Some g) /\
  (forall k o, get (owners d) (Some k) = Some o ->
               get (owners (snd (added repo d))) (Some k) = Some o).
Proof.
  rewrite added_gitHubRepositories, added_owners. split.
  - intros k g H. destruct (getGitHubRepository repo);
      [apply get_add_old|]; exact H.
  - intros k o H. destruct (getGitHubRepository repo) as [g|]; [|exact H].
    unfold resolveOwner. destruct (first login _); [exact H|].
    apply get_add_old, H.
Qed.

Lemma updated_frame repository d d' :
  updated repository d = Some d' ->
  repositories d' = repositories d /\ owners d' = owners d.
Proof.
  unfold updated.
  destruct (get (repositories d) _) as [l|]; [|discriminate].
  destruct (get (gitHubRepositories d) _) as [g|]; [|discriminate].
  destruct (getGitHubRepository repository); [|discriminate].
  intros H; inversion H; auto.
Qed.

(** The key generator of [repositories] never goes back. *)
Lemma step_nextID d d' :
  step d d' -> nextID (repositories d) <= nextID (repositories d').
Proof.
  intros [plan res d1 H|repo plan res d1 H|repository plan res d1 H].
  - apply getRepositories_inv in H. destruct H as [-> _]. lia.
  - apply addRepository_inv in H. destruct res as [r'|e].
    + destruct H as [_ ->].
      destruct (added_repositories repo d) as [_ ->]. cbn. lia.
    + subst. lia.
  - apply updateGitHubRepository_inv in H. destruct res as [[]|e].
    + apply updated_frame in H. destruct H as [-> _]. lia.
    + subst. lia.
Qed.

Lemma steps_nextID d d' :
  steps d d' -> nextID (repositories d) <= nextID (repositories d').
Proof.
  induction 1 as [d|d d' d'' Hstep _ IH]; [lia|].
  apply step_nextID in Hstep. lia.
Qed.

End ListFacts.

(** ** More on [updateGitHubRepository] *)

Module Updating.
Import Models Dexie Schema Transaction RepositoriesStore Invariants Samples.
Import Updates TableFacts TxFacts AddFacts Consistency UpdateFacts.

(** X1: A committed [updateGitHubRepository] has found the record of the
    repository, the hosted-repository record [g] it links to and the
    input's hosted repository, and has replaced [g], under its key, by
    the input's name, private, fork and htmlURL with the owner id [g]
    had; every other record of [gitHubRepositories], its keys and its key
    generator, and the tables [repositories] and [owners] are as
    before. *)
Theorem updateGitHubRepository_replaces_one_record repository plan d d'
    (Hwf : wfTable (gitHubRepositories d))
    (Hrun : updateGitHubRepository repository plan d = (Ok tt, d')) :
  exists localRepo g newGitHubRepo,
    get (repositories d) (getID repository) = Some localRepo /\
    get (gitHubRepositories d) (gitHubRepositoryID (fields localRepo))
    = Some g /\
    getGitHubRepository repository = Some newGitHubRepo /\
    repositories d' = repositories d /\
    owners d' = owners d /\
    nextID (gitHubRepositories d') = nextID (gitHubRepositories d) /\
    map (@id _) (rows (gitHubRepositories d'))
    = map (@id _) (rows (gitHubRepositories d)) /\
    forall k,
      get (gitHubRepositories d') (Some k) =
      if k =? id g
      then Some (mkStored (id g) (replacement g newGitHubRepo))
      else get (gitHubRepositories d) (Some k).
Proof.
  apply updateGitHubRepository_inv in Hrun. unfold updated in Hrun.
  destruct (get (repositories d) (getID repository)) as [localRepo|];
    [|discriminate].
  destruct (get (gitHubRepositories d) _) as [g|] eqn:Eg; [|discriminate].
  destruct (getGitHubRepository repository) as [newG|]; [|discriminate].
  inversion Hrun; subst d'; clear Hrun.
  exists localRepo, g, newG.
  destruct (gitHubRepositoryID (fields localRepo)) as [k0|]; [|discriminate].
  destruct (get_In _ _ Eg) as [Hin Hk].
  destruct Hwf as (Hn & Hall & Hs).
  assert (Hsome : find (hasKey (id g)) (rows (gitHubRepositories d)) <> None).
  { cbn [get] in Eg. rewrite Hk, Eg. discriminate. }
  destruct (@upsert_existing _ (rows (gitHubRepositories d)) (id g)
              (replacement g newG) Hs Hsome) as [Hkeys Hfind].
  rewrite Forall_forall in Hall. specialize (Hall g Hin).
  repeat split; try reflexivity; try exact Eg.
  - cbn [put snd nextID withGitHubRepositories gitHubRepositories]. lia.
  - exact Hkeys.
  - intros k. cbn. apply Hfind.
Qed.

Lemma updateGitHubRepository_replaces_one_record_witness :
  let renamed :=
    mkRepository "/elsewhere"%string
      (Some (mkGitHubRepository "renamed"%string
               (mkOwner "Carol"%string "https://ghe.example.com"%string)
               true true "https://example.com/a/renamed"%string))
      (Some 1) in
  wfTable (gitHubRepositories withAlice) /\
  exists d',
    updateGitHubRepository renamed [] withAlice = (Ok tt, d') /\
    repositories d' = repositories withAlice /\
    owners d' = owners withAlice /\
    get (gitHubRepositories d') (Some 1)
    = Some (mkStored 1 (mkIGitHubRepository "renamed"%string 1 true true
                          "https://example.com/a/renamed"%string)).
Proof.
  intros renamed.
  assert (Hwf : wfTable (gitHubRepositories withAlice)).
  { unfold wfTable; cbn. split; [lia|].
    split; [constructor; [cbn; lia|constructor]|repeat constructor]. }
  split; [exact Hwf|].
  eexists. split; [reflexivity|].
  destruct (@updateGitHubRepository_replaces_one_record renamed [] withAlice
              _ Hwf eq_refl)
    as (l & g & n & _ & _ & _ & Hr & Ho & _ & _ & _).
  split; [exact Hr|]. split; [exact Ho|]. reflexivity.
Defined.

(** X2: An input without hosted repository makes [updateGitHubRepository]
    fail, whatever the tables hold and whatever the store rejects, and
    the tables stay as they are: when the records are found, the read of
    [newGitHubRepo.getPrivate()] on line 97 throws before the [put]. *)
Theorem updateGitHubRepository_without_hosted repository d
    (Hbare : getGitHubRepository repository = None) :
  (forall plan, exists e,
      updateGitHubRepository repository plan d = (Err e, d)) /\
  updateGitHubRepository repository [] d = (Err TypeError, d).
Proof.
  assert (Hnone : updated repository d = None).
  { unfold updated. rewrite Hbare.
    destruct (get (repositories d) _) as [l|]; [|reflexivity].
    destruct (get (gitHubRepositories d) _); reflexivity. }
  split.
  - intros plan. apply updateGitHubRepository_fails, Hnone.
  - rewrite updateGitHubRepository_healthy, Hnone. reflexivity.
Qed.

Lemma updateGitHubRepository_without_hosted_witness :
  let bare := mkRepository "/repo"%string None (Some 1) in
  getGitHubRepository bare = None /\
  updateGitHubRepository bare [] withAlice = (Err TypeError, withAlice).
Proof.
  intros bare. split; [reflexivity|].
  apply (@updateGitHubRepository_without_hosted bare withAlice eq_refl).
Defined.

(** X3: A repository the table [repositories] has no record of (its id is
    unknown, or [null]) makes [updateGitHubRepository] fail on the read
    of [localRepo.gitHubRepositoryID] on line 89, with the tables as they
    are. *)
Theorem updateGitHubRepository_unknown_repository repository d
    (Hunknown : get (repositories d) (getID repository) = None) :
  (forall plan, exists e,
      updateGitHubRepository repository plan d = (Err e, d)) /\
  updateGitHubRepository repository [] d = (Err TypeError, d).
Proof.
  assert (Hnone : updated repository d = None).
  { unfold updated. rewrite Hunknown. reflexivity. }
  split.
  - intros plan. apply updateGitHubRepository_fails, Hnone.
  - rewrite updateGitHubRepository_healthy, Hnone. reflexivity.
Qed.

Lemma updateGitHubRepository_unknown_repository_witness :
  let stranger := mkRepository "/repo"%string (Some proj) (Some 5) in
  get (repositories withAlice) (getID stranger) = None /\
  get (repositories withAlice) (getID repoOfAlice) = None /\
  updateGitHubRepository stranger [] withAlice = (Err TypeError, withAlice) /\
  updateGitHubRepository repoOfAlice [] withAlice
  = (Err TypeError, withAlice).
Proof.
  intros stranger. split; [reflexivity|]. split; [reflexivity|]. split.
  - apply (@updateGitHubRepository_unknown_repository stranger withAlice
             eq_refl).
  - apply (@updateGitHubRepository_unknown_repository repoOfAlice withAlice
             eq_refl).
Defined.

(** X4: [updateGitHubRepository] is idempotent: after a committed call, the
    same call again succeeds when nothing is rejected, and no run of it
    changes the tables any more. *)
Theorem updateGitHubRepository_idempotent repository plan d d1
    (Hrun : updateGitHubRepository repository plan d = (Ok tt, d1)) :
  updateGitHubRepository repository [] d1 = (Ok tt, d1) /\
  forall plan' res d2,
    updateGitHubRepository repository plan' d1 = (res, d2) -> d2 = d1.
Proof.
  apply updateGitHubRepository_inv in Hrun.
  assert (Hagain : updated repository d1 = Some d1).
  { unfold updated in Hrun |- *.
    destruct (get (repositories d) (getID repository)) as [localRepo|] eqn:El;
      [|discriminate].
    destruct (get (gitHubRepositories d) _) as [g|] eqn:Eg; [|discriminate].
    destruct (getGitHubRepository repository) as [newG|]; [|discriminate].
    inversion Hrun; subst d1; clear Hrun.
    cbn [withGitHubRepositories repositories gitHubRepositories owners].
    rewrite El.
    destruct (gitHubRepositoryID (fields localRepo)) as [k|]; [|discriminate].
    destruct (get_In _ _ Eg) as [_ Hk].
    cbn [get put snd rows]. rewrite <- Hk. rewrite upsert_find.
    cbn [id fields replacement ownerID]. rewrite upsert_twice.
    unfold withGitHubRepositories, replacement.
    cbn [repositories gitHubRepositories owners nextID fields ownerID].
    f_equal. f_equal. f_equal. lia. }
  split.
  - rewrite updateGitHubRepository_healthy, Hagain. reflexivity.
  - intros plan' res d2 H. apply updateGitHubRepository_inv in H.
    destruct res as [[]|e]; congruence.
Qed.

Lemma updateGitHubRepository_idempotent_witness :
  let renamed :=
    mkRepository "/repo"%string
      (Some (mkGitHubRepository "renamed"%string
               (mkOwner "Alice"%string "https://api.example.com"%string)
               true false "https://example.com/a/renamed"%string))
      (Some 1) in
  let d1 := snd (updateGitHubRepository renamed [] withAlice) in
  updateGitHubRepository renamed [] withAlice = (Ok tt, d1) /\
  updateGitHubRepository renamed [] d1 = (Ok tt, d1).
Proof.
  intros renamed d1. split; [reflexivity|].
  apply (@updateGitHubRepository_idempotent renamed [] withAlice d1 eq_refl).
Defined.

(** X5: [updateGitHubRepository] never writes to [owners]: in every run, and
    at every point inside the transaction, the table is the one from
    before the call; the owner of the input is neither inserted nor used
    to change a stored login or endpoint. *)
Theorem updateGitHubRepository_owners_untouched repository plan d :
  owners (snd (updateGitHubRepository repository plan d)) = owners d /\
  owners
    (db (snd (updateGitHubRepositoryBody repository (mkTxState d plan rw))))
  = owners d.
Proof.
  split.
  - destruct (updateGitHubRepository repository plan d) as [res d'] eqn:E.
    cbn [snd]. apply updateGitHubRepository_inv in E.
    destruct res as [[]|e]; [|congruence].
    unfold updated in E.
    destruct (get (repositories d) _) as [l|]; [|discriminate].
    destruct (get (gitHubRepositories d) _) as [g|]; [|discriminate].
    destruct (getGitHubRepository repository); [|discriminate].
    inversion E. reflexivity.
  - destruct (updateGitHubRepositoryBody repository (mkTxState d plan rw))
      as [res st] eqn:E.
    apply updateGitHubRepositoryBody_frame in E; [|reflexivity].
    apply E.
Qed.

(** X6: Update, then list.  In a store satisfying the invariants of the data
    model, a call of [updateGitHubRepository] for a repository that has a
    record with a link succeeds when nothing is rejected, and
    [getRepositories] then shows, at the record's position, the input's
    name, private, fork and htmlURL, with the path of the record and the
    login and endpoint of the owner the hosted repository had before:
    the input's path and owner are not taken over. *)
Theorem updateGitHubRepository_then_getRepositories
    repository newGitHubRepo d i localRepo k
    (Hinv : consistent d)
    (Hrow : nth_error (rows (repositories d)) i = Some localRepo)
    (Hlink : gitHubRepositoryID (fields localRepo) = Some k)
    (Hid : getID repository = Some (id localRepo))
    (Hnew : getGitHubRepository repository = Some newGitHubRepo) :
  exists d' l g o,
    updateGitHubRepository repository [] d = (Ok tt, d') /\
    get (gitHubRepositories d) (Some k) = Some g /\
    get (owners d) (Some (ownerID (fields g))) = Some o /\
    getRepositories [] d' = (Ok l, d') /\
    nth_error l i =
      Some (mkRepository (path (fields localRepo))
              (Some (mkGitHubRepository (getName newGitHubRepo)
                       (mkOwner (login (fields o)) (endpoint (fields o)))
                       (getPrivate newGitHubRepo) (getFork newGitHubRepo)
                       (getHTMLURL newGitHubRepo)))
              (Some (id localRepo))).
Proof.
  pose proof (nth_error_In _ _ Hrow) as Hin.
  pose proof (@In_get _ _ localRepo (wf_repositories Hinv) Hin) as Hlocal.
  pose proof (repositories_linked Hinv) as Hl.
  rewrite Forall_forall in Hl. specialize (Hl _ Hin). rewrite Hlink in Hl.
  destruct (get (gitHubRepositories d) (Some k)) as [g|] eqn:Eg;
    [clear Hl|congruence].
  destruct (get_In _ _ Eg) as [Hgin Hgk].
  pose proof (gitHubRepositories_owned Hinv) as Ho.
  rewrite Forall_forall in Ho. specialize (Ho _ Hgin).
  destruct (get (owners d) (Some (ownerID (fields g)))) as [o|] eqn:Eo;
    [clear Ho|congruence].
  assert (Hupd : updated repository d =
                 Some (withGitHubRepositories d
                         (snd (put (gitHubRepositories d)
                                   (replacement g newGitHubRepo)
                                   (Some (id g)))))).
  { unfold updated. rewrite Hid, Hlocal, Hlink, Eg, Hnew. reflexivity. }
  destruct (@updated_facts d (Some k) g (replacement g newGitHubRepo)
              Hinv Eg eq_refl) as [Hc' _].
  set (d' := withGitHubRepositories d
               (snd (put (gitHubRepositories d)
                         (replacement g newGitHubRepo) (Some (id g))))) in *.
  pose proof (consistent_intact Hc') as Hint.
  destruct (@inflations_intact d' _ Hint) as [l Hlist].
  exists d', l, g, o.
  split; [rewrite updateGitHubRepository_healthy, Hupd; reflexivity|].
  split; [reflexivity|]. split; [exact Eo|].
  split; [rewrite getRepositories_healthy, Hlist; reflexivity|].
  assert (Hrow' : nth_error (rows (repositories d')) i = Some localRepo)
    by exact Hrow.
  destruct (@inflations_nth d' _ l i localRepo Hlist Hrow') as (x & Hx & ->).
  rewrite <- Hx. unfold inflation. rewrite Hlink.
  assert (Hk : truthy (Some k) = true).
  { cbn. destruct (wf_gitHubRepositories Hinv) as (_ & Hall & _).
    rewrite Forall_forall in Hall. specialize (Hall _ Hgin).
    apply negb_true_iff, Z.eqb_neq. lia. }
  rewrite Hk.
  assert (Hg' : get (gitHubRepositories d') (Some k)
                = Some (mkStored k (replacement g newGitHubRepo))).
  { cbn. rewrite Hgk. apply upsert_find. }
  rewrite Hg'. cbn [fields replacement ownerID].
  change (owners d') with (owners d). rewrite Eo. reflexivity.
Qed.

Lemma updateGitHubRepository_then_getRepositories_witness :
  let newGitHubRepo :=
    mkGitHubRepository "renamed"%string
      (mkOwner "Carol"%string "https://ghe.example.com"%string)
      true true "https://example.com/a/renamed"%string in
  let repository :=
    mkRepository "/elsewhere"%string (Some newGitHubRepo) (Some 1) in
  let localRepo := mkStored 1 (mkIRepository "/repo"%string (Some 1)) in
  consistent withAlice /\
  nth_error (rows (repositories withAlice)) 0 = Some localRepo /\
  exists d' l,
    updateGitHubRepository repository [] withAlice = (Ok tt, d') /\
    getRepositories [] d' = (Ok l, d') /\
    nth_error l 0 =
      Some (mkRepository "/repo"%string
              (Some (mkGitHubRepository "renamed"%string
                       (mkOwner "Alice"%string
                                "https://api.example.com"%string)
                       true true "https://example.com/a/renamed"%string))
              (Some 1)).
Proof.
  intros newGitHubRepo repository localRepo.
  assert (Hc : consistent withAlice).
  { apply (consistent_added repoOfAlice consistent_empty). }
  split; [exact Hc|]. split; [reflexivity|].
  destruct (@updateGitHubRepository_then_getRepositories repository
              newGitHubRepo withAlice 0%nat localRepo 1 Hc eq_refl eq_refl
              eq_refl eq_refl)
    as (d' & l & g & o & Hupd & Hg & Ho & Hlist & Hnth).
  exists d', l. split; [exact Hupd|]. split; [exact Hlist|].
  cbn in Hg, Ho. inversion Hg; subst g. cbn in Ho. inversion Ho; subst o.
  exact Hnth.
Defined.

End Updating.

(** ** More on [addRepository] *)

Module Adding.
Import Models Dexie Schema Transaction RepositoriesStore Invariants Samples.
Import Updates TableFacts TxFacts AddFacts Consistency UpdateFacts ListFacts.

(** X7: Insert, then look up.  On a well-formed [repositories] table the id
    [addRepository] returns was the key of no record before; afterwards
    [get] finds under it the new record with the input's path, and finds
    every earlier record where it was. *)
Theorem addRepository_fresh_id repo plan d r' d'
    (Hwf : wfTable (repositories d))
    (Hadd : addRepository repo plan d = (Ok r', d')) :
  exists n link,
    getID r' = Some n /\
    get (repositories d) (Some n) = None /\
    get (repositories d') (Some n)
    = Some (mkStored n (mkIRepository (getPath repo) link)) /\
    forall k row,
      get (repositories d) (Some k) = Some row ->
      get (repositories d') (Some k) = Some row.
Proof.
  apply addRepository_inv in Hadd. destruct Hadd as [-> ->].
  destruct (added_repositories repo d) as [Hn Hrows].
  set (link := match getGitHubRepository repo with
               | Some _ => Some (nextID (gitHubRepositories d))
               | None => None
               end) in *.
  exists (nextID (repositories d)), link.
  split; [cbn; rewrite Hn; reflexivity|].
  assert (Hrows' : repositories (snd (added repo d)) =
                   snd (add (repositories d)
                          (mkIRepository (getPath repo) link)))
    by exact Hrows.
  rewrite Hrows'. split; [|split].
  - destruct (get (repositories d) (Some (nextID (repositories d))))
      as [row|] eqn:E; [|reflexivity].
    destruct (get_In _ _ E) as [Hin Hk].
    destruct Hwf as (_ & Hall & _). rewrite Forall_forall in Hall.
    specialize (Hall _ Hin). lia.
  - apply get_add_new, Hwf.
  - intros k row H. apply get_add_old, H.
Qed.

Lemma addRepository_fresh_id_witness :
  let second := mkRepository "/second"%string None None in
  wfTable (repositories withAlice) /\
  exists d',
    addRepository second [] withAlice
    = (Ok (mkRepository "/second"%string None (Some 2)), d') /\
    get (repositories withAlice) (Some 2) = None /\
    get (repositories d') (Some 2)
    = Some (mkStored 2 (mkIRepository "/second"%string None)) /\
    get (repositories d') (Some 1)
    = Some (mkStored 1 (mkIRepository "/repo"%string (Some 1))).
Proof.
  intros second.
  assert (Hwf : wfTable (repositories withAlice)).
  { unfold wfTable; cbn. split; [lia|].
    split; [constructor; [cbn; lia|constructor]|repeat constructor]. }
  split; [exact Hwf|]. eexists. split; [reflexivity|].
  destruct (@addRepository_fresh_id second [] withAlice _ _ Hwf eq_refl)
    as (n & link & Hn & Hfresh & Hnew & Hold).
  cbn in Hn. inversion Hn; subst n.
  split; [exact Hfresh|]. split; [reflexivity|].
  apply Hold. reflexivity.
Defined.

(** X8: What a committed [addRepository] does to [owners] for an input with
    a hosted repository.  When the table has an owner whose login equals
    the input's up to case, the table is left as it is (the stored login
    and endpoint stay, whatever the input's are) and the new
    hosted-repository record names that owner.  Otherwise exactly one
    record, with the input's login and endpoint, is appended under a
    generated key and the new hosted-repository record names it. *)
Theorem addRepository_owner_step repo g plan d r' d'
    (Hg : getGitHubRepository repo = Some g)
    (Hadd : addRepository repo plan d = (Ok r', d')) :
  exists ownerID',
    rows (gitHubRepositories d') =
      rows (gitHubRepositories d) ++
      [mkStored (nextID (gitHubRepositories d))
         (mkIGitHubRepository (getName g) ownerID' (getPrivate g)
                              (getFork g) (getHTMLURL g))] /\
    match first login
            (whereEqualsIgnoreCase (owners d) login (getLogin (getOwner g)))
    with
    | Some existingOwner =>
        owners d' = owners d /\ ownerID' = id existingOwner /\
        In existingOwner (rows (owners d))
    | None =>
        ownerID' = nextID (owners d) /\
        rows (owners d') =
          rows (owners d) ++
          [mkStored (nextID (owners d))
             (mkIOwner (getLogin (getOwner g)) (getEndpoint (getOwner g)))] /\
        forall o, In o (rows (owners d)) ->
                  equalsIgnoreCase (login (fields o)) (getLogin (getOwner g))
                  = false
    end.
Proof.
  apply addRepository_inv in Hadd. destruct Hadd as [-> ->].
  exists (fst (resolveOwner d (getOwner g))).
  rewrite added_gitHubRepositories, added_owners, Hg.
  split; [reflexivity|].
  unfold resolveOwner.
  destruct (first login _) as [existingOwner|] eqn:E; cbn [fst snd].
  - split; [reflexivity|]. split; [reflexivity|].
    apply first_In in E. apply filter_In in E. apply E.
  - split; [reflexivity|]. split; [reflexivity|].
    intros o Hin. apply first_None in E.
    destruct (equalsIgnoreCase (login (fields o)) (getLogin (getOwner g)))
      eqn:F; [|reflexivity].
    assert (Hf : In o (whereEqualsIgnoreCase (owners d) login
                         (getLogin (getOwner g))))
      by (apply filter_In; auto).
    rewrite E in Hf. destruct Hf.
Qed.

Lemma addRepository_owner_step_witness :
  let d1 := snd (addRepository ofBob [] emptyDatabase) in
  exists d2,
    addRepository ofBOB [] d1 = (Ok (repositoryWithID ofBOB 2), d2) /\
    owners d2 = owners d1 /\
    rows (owners d1)
    = [mkStored 1 (mkIOwner "bob"%string "https://api.example.com"%string)].
Proof.
  intros d1. eexists. split; [reflexivity|].
  destruct (getGitHubRepository ofBOB) as [g|] eqn:Eg; [|discriminate].
  destruct (@addRepository_owner_step ofBOB g [] d1 _ _ Eg eq_refl)
    as (k & _ & H).
  inversion Eg; subst g. cbn in H. split; [apply H|reflexivity].
Defined.

(** X9: Ids are never handed out twice: whatever calls of the store happen
    between two committed calls of [addRepository], the id the later one
    returns is greater than the id the earlier one returned. *)
Theorem addRepository_ids_increase
    repo1 repo2 plan1 plan2 d0 d1 d1' d2 r1 r2
    (Hadd1 : addRepository repo1 plan1 d0 = (Ok r1, d1))
    (Hbetween : steps d1 d1')
    (Hadd2 : addRepository repo2 plan2 d1' = (Ok r2, d2)) :
  exists n1 n2, getID r1 = Some n1 /\ getID r2 = Some n2 /\ n1 < n2.
Proof.
  apply addRepository_inv in Hadd1. destruct Hadd1 as [-> ->].
  apply addRepository_inv in Hadd2. destruct Hadd2 as [-> ->].
  destruct (added_repositories repo1 d0) as [Hn1 Hrows1].
  destruct (added_repositories repo2 d1') as [Hn2 _].
  apply steps_nextID in Hbetween. rewrite Hrows1 in Hbetween.
  cbn [nextID] in Hbetween.
  exists (fst (added repo1 d0)), (fst (added repo2 d1')).
  split; [reflexivity|]. split; [reflexivity|]. lia.
Qed.

Lemma addRepository_ids_increase_witness :
  let d1 := snd (addRepository ofBob [] emptyDatabase) in
  let d1' := snd (updateGitHubRepository (repositoryWithID ofBOB 1) [] d1) in
  let d2 := snd (addRepository ofBOB [] d1') in
  addRepository ofBob [] emptyDatabase = (Ok (repositoryWithID ofBob 1), d1) /\
  steps d1 d1' /\
  addRepository ofBOB [] d1' = (Ok (repositoryWithID ofBOB 2), d2) /\
  1 < 2.
Proof.
  intros d1 d1' d2.
  assert (Hsteps : steps d1 d1').
  { eapply steps_step; [|apply steps_refl].
    eapply (@step_updateGitHubRepository d1 (repositoryWithID ofBOB 1) []).
    reflexivity. }
  split; [reflexivity|]. split; [exact Hsteps|]. split; [reflexivity|].
  destruct (@addRepository_ids_increase ofBob ofBOB [] [] emptyDatabase
              d1 d1' d2 _ _ eq_refl Hsteps eq_refl)
    as (n1 & n2 & H1 & H2 & Hlt).
  cbn in H1, H2. inversion H1; inversion H2; subst. exact Hlt.
Defined.

End Adding.

(** ** More on [getRepositories] *)

Module Listing.
Import Models Dexie Schema Transaction RepositoriesStore Invariants Samples.
Import Updates TableFacts TxFacts AddFacts Consistency UpdateFacts ListFacts.

(** X10: The invariants of the data model hold in every database the store
    can get into from an empty one by calls of its three methods,
    whatever the store rejects during them: keys are generated and in
    order, owner logins are unique up to case, every link of a
    repository leads to a hosted-repository record and every
    hosted-repository record names an owner record. *)
Theorem reachable_invariants d (Hreach : reachable d) : consistent d.
Proof.
  apply (steps_consistent consistent_empty Hreach).
Qed.

Lemma reachable_invariants_witness :
  reachable withAlice /\ consistent withAlice.
Proof.
  assert (Hreach : reachable withAlice).
  { unfold reachable. eapply steps_step; [|apply steps_refl].
    eapply (@step_addRepository emptyDatabase repoOfAlice []).
    reflexivity. }
  split; [exact Hreach|]. apply (reachable_invariants Hreach).
Defined.

(** X11: In a reachable database [getRepositories] succeeds when nothing is
    rejected, and its result has one Repository per record of
    [repositories], in the order of the table, each with the id and the
    path of its record. *)
Theorem getRepositories_lists_every_record d (Hreach : reachable d) :
  exists l,
    getRepositories [] d = (Ok l, d) /\
    map getID l = map (fun repo => Some (id repo)) (rows (repositories d)) /\
    map getPath l = map (fun repo => path (fields repo))
                        (rows (repositories d)).
Proof.
  pose proof (steps_consistent consistent_empty Hreach) as [Hc _].
  destruct (@inflations_intact d _ (consistent_intact Hc)) as [l Hl].
  exists l. split; [rewrite getRepositories_healthy, Hl; reflexivity|].
  apply (inflations_shape _ _ Hl).
Qed.

Lemma getRepositories_lists_every_record_witness :
  reachable withAlice /\
  exists l,
    getRepositories [] withAlice = (Ok l, withAlice) /\
    map getID l = [Some 1] /\ map getPath l = ["/repo"%string].
Proof.
  assert (Hreach : reachable withAlice).
  { unfold reachable. eapply steps_step; [|apply steps_refl].
    eapply (@step_addRepository emptyDatabase repoOfAlice []).
    reflexivity. }
  split; [exact Hreach|].
  apply (getRepositories_lists_every_record Hreach).
Defined.

(** X12: [getRepositories] never changes the tables, and what the store
    rejects can only turn its result into an error: a list it returns in
    some run is the list it returns when nothing is rejected. *)
Theorem getRepositories_reads_only plan d :
  snd (getRepositories plan d) = d /\
  forall l, fst (getRepositories plan d) = Ok l ->
            getRepositories [] d = (Ok l, d).
Proof.
  destruct (getRepositories plan d) as [res d'] eqn:E.
  apply getRepositories_inv in E. destruct E as [-> Hres].
  split; [reflexivity|].
  intros l Hl. cbn [fst] in Hl. subst res.
  rewrite getRepositories_healthy, Hres. reflexivity.
Qed.

(** X13: Add, then list.  In a store satisfying the invariants of the data
    model, a committed [addRepository] extends the listing at its end and
    nowhere else: the list [getRepositories] returned before is a prefix
    of the one it returns afterwards, which has one more entry, with the
    id the call returned and the input's path. *)
Theorem addRepository_extends_listing repo plan plan0 d d0 l r' d'
    (Hinv : consistent d)
    (Hlist : getRepositories plan0 d = (Ok l, d0))
    (Hadd : addRepository repo plan d = (Ok r', d')) :
  exists x,
    getRepositories [] d' = (Ok (l ++ [x]), d') /\
    getID x = getID r' /\
    getPath x = getPath repo.
Proof.
  apply getRepositories_inv in Hlist. destruct Hlist as [_ Hl].
  apply addRepository_inv in Hadd. destruct Hadd as [-> ->].
  destruct (added_repositories repo d) as [Hn Hrows].
  destruct (added_keeps_records repo d) as [Hg Ho].
  pose proof (consistent_intact (consistent_added repo Hinv)) as Hint.
  unfold intact in Hint. rewrite Hrows in Hint. cbn [rows] in Hint.
  rewrite forallb_app in Hint. apply andb_true_iff in Hint.
  destruct Hint as [_ Hnew]. cbn [forallb] in Hnew.
  destruct (inflation (snd (added repo d)) _) as [x|] eqn:Ex; [|discriminate].
  exists x.
  destruct (@inflation_shape _ _ x Ex) as [Hid Hpath].
  split; [|split].
  - rewrite getRepositories_healthy, Hrows. cbn [rows].
    rewrite (@inflations_snoc _ _ _ l x
               (@inflations_preserved d _ _ l Hg Ho Hl) Ex).
    reflexivity.
  - rewrite Hid. cbn. rewrite Hn. reflexivity.
  - rewrite Hpath. reflexivity.
Qed.

Lemma addRepository_extends_listing_witness :
  let second := mkRepository "/second"%string None None in
  consistent withAlice /\
  exists l d' x,
    getRepositories [] withAlice = (Ok l, withAlice) /\
    addRepository second [] withAlice = (Ok (repositoryWithID second 2), d') /\
    getRepositories [] d' = (Ok (l ++ [x]), d') /\
    getID x = Some 2 /\ getPath x = "/second"%string.
Proof.
  intros second.
  assert (Hc : consistent withAlice).
  { apply (consistent_added repoOfAlice consistent_empty). }
  split; [exact Hc|].
  eexists. eexists.
  destruct (@addRepository_extends_listing second [] [] withAlice _ _ _ _
              Hc eq_refl eq_refl) as (x & Hx).
  exists x. split; [reflexivity|]. split; [reflexivity|]. exact Hx.
Defined.

End Listing.

(** ** Properties of the commit-message form *)

Module CommitMessageFacts.
Import CommitMessage.
Local Open Scope string_scope.

Lemma append_empty (s : string) : s ++ "" = s.
Proof.
  induction s as [|a s IH]; cbn; [reflexivity|]. rewrite IH. reflexivity.
Qed.

Section Form.
Context {World : Type}.
Implicit Types (c : Component World) (w : World).

(** X14: The label of the button is [Commit to] followed by a branch name that
    is never empty: the branch of the props when that is a non-empty
    string, and [master] both when the branch is [null] and when it is
    the empty string. *)
Theorem render_button_label c :
  textOf (buttonOf (childrenOf (render c))) = "Commit to " ++ branchName c /\
  branchName c <> "" /\
  (forall b, branch (props c) = Some b -> b <> "" -> branchName c = b) /\
  (branch (props c) = None \/ branch (props c) = Some "" ->
   branchName c = "master").
Proof.
  split; [|split; [|split]].
  - cbn. rewrite append_empty. reflexivity.
  - unfold branchName, truthyString.
    destruct (branch (props c)) as [b|]; [|discriminate].
    destruct (b =? "") eqn:E; cbn; [discriminate|].
    apply String.eqb_neq in E. exact E.
  - intros b Hb Hne. unfold branchName, truthyString. rewrite Hb.
    apply String.eqb_neq in Hne. rewrite Hne. reflexivity.
  - intros [H|H]; unfold branchName, truthyString; rewrite H; reflexivity.
Qed.

(** X15: Typing a title and submitting hands exactly that title to
    [onCreateCommit], prevents the default action of the click and
    leaves the input of the rendered form empty, with the props as they
    were; submitting once more right away hands over the empty title:
    [handleSubmit] does not check that there is a title. *)
Theorem type_then_submit c w typing click :
  let '(c1, _, w1) := fire HandleTitleChange typing (c, w) in
  let '(c2, click', w2) := fire HandleSubmit click (c1, w1) in
  let '(c3, _, w3) := fire HandleSubmit click (c2, w2) in
  w2 = onCreateCommit (props c) (targetValue typing) w /\
  defaultPrevented click' = true /\
  inputValueOf (childrenOf (render c2)) = Some "" /\
  props c2 = props c /\
  w3 = onCreateCommit (props c) ""
         (onCreateCommit (props c) (targetValue typing) w).
Proof.
  cbn. repeat split.
Qed.

End Form.

Lemma render_button_label_witness :
  let c := constructor (mkProps recording (Some "")) in
  textOf (buttonOf (childrenOf (render c))) = "Commit to master" /\
  let c' := constructor (mkProps recording (Some "feature")) in
  branchName c' = "feature".
Proof.
  cbv zeta. split.
  - rewrite (proj1 (render_button_label _)).
    rewrite (proj2 (proj2 (proj2 (render_button_label
               (constructor (mkProps recording (Some ""))))))
               (or_intror eq_refl)).
    reflexivity.
  - apply (proj1 (proj2 (proj2 (render_button_label
             (constructor (mkProps recording (Some "feature")))))));
      [reflexivity|discriminate].
Defined.

Lemma type_then_submit_witness :
  let c := constructor (mkProps recording None) in
  let typing := mkEvent "Fix the parser" false false in
  let click := mkEvent "" false false in
  snd (run [(HandleTitleChange, typing); (HandleSubmit, click);
            (HandleSubmit, click)] (c, []))
  = [""; "Fix the parser"].
Proof.
  intros c typing click.
  pose proof (@type_then_submit _ c [] typing click) as H.
  cbn in H. destruct H as (_ & _ & _ & _ & H). exact H.
Defined.


End CommitMessageFacts.
